(** * BVHManager (src/utils/bvhManager.ts): registry of static meshes and
    closest-hit queries.

    The manager is a thin layer over two third-party libraries, three.js
    and three-mesh-bvh.  Their operations are taken as interfaces
    ([JSNumber], [Three], [ThreeMeshBVH]); the manager's own code (the
    registry, the caching of inverse world matrices, the selection of the
    closest hit) is embedded as written.  A small concrete instance of the
    interfaces ([Module Flat]) makes every definition executable.

    Meshes are JavaScript objects shared with the caller: they live in a
    heap indexed by reference, and the map [bvhMeshes] is keyed by
    reference, in insertion order.  [buildBVH] runs in a state monad with
    exceptions, so that the [try]/[catch] and the writes that precede a
    throw are as in the source; the other methods cannot throw and are
    plain functions of the world.  The field [raycaster] of the class is
    never read and is left out. *)

From Stdlib Require Import List Bool Arith ZArith QArith Qabs Lia String.
Import ListNotations.
Local Open Scope nat_scope.
Local Open Scope list_scope.

(* ===================================================================== *)
(** ** JavaScript values used by the manager *)
(* ===================================================================== *)

(** A JavaScript [number].  The manager only compares ([<]), doubles
    ([maxDistance * 2]), subtracts and takes absolute values; literals
    are rationals and [Infinity] is the default range of the casts. *)
Class JSNumber : Type := {
  number : Type;
  literal : Q -> number;
  Infinity : number;
  num_lt : number -> number -> bool;
  num_mul : number -> number -> number;
  num_sub : number -> number -> number;
  Math_abs : number -> number
}.

(** What the selection of a closest hit needs of [<]: it is a strict
    order.  IEEE comparison satisfies both laws, NaN included (every
    comparison with NaN is false). *)
Class JSNumberOrder (N : JSNumber) : Prop := {
  num_lt_irrefl : forall a : number, num_lt a a = false;
  num_lt_trans : forall a b c : number,
      num_lt a b = true -> num_lt b c = true -> num_lt a c = true
}.

(** A JavaScript object reference: meshes are compared by identity. *)
Definition MeshRef := nat.

(** [Map<K, V>] with object keys: entries in insertion order, at most one
    per key.  [forEach] visits them in list order. *)
Fixpoint Map_get {V : Type} (k : MeshRef) (l : list (MeshRef * V)) : option V :=
  match l with
  | [] => None
  | (k', v) :: t => if Nat.eqb k k' then Some v else Map_get k t
  end.

Definition Map_has {V : Type} (k : MeshRef) (l : list (MeshRef * V)) : bool :=
  match Map_get k l with Some _ => true | None => false end.

(** [set]: an existing key keeps its place, a new key goes last. *)
Fixpoint Map_set {V : Type} (k : MeshRef) (v : V) (l : list (MeshRef * V))
  : list (MeshRef * V) :=
  match l with
  | [] => [(k, v)]
  | (k', v') :: t => if Nat.eqb k k' then (k, v) :: t else (k', v') :: Map_set k v t
  end.

Fixpoint Map_delete {V : Type} (k : MeshRef) (l : list (MeshRef * V))
  : list (MeshRef * V) :=
  match l with
  | [] => []
  | (k', v') :: t => if Nat.eqb k k' then t else (k', v') :: Map_delete k t
  end.

Definition Map_clear {V : Type} (l : list (MeshRef * V)) : list (MeshRef * V) := [].

(** In-place mutation of the object stored under [k]. *)
Fixpoint Map_mutate {V : Type} (k : MeshRef) (f : V -> V) (l : list (MeshRef * V))
  : list (MeshRef * V) :=
  match l with
  | [] => []
  | (k', v') :: t => if Nat.eqb k k' then (k', f v') :: t else (k', v') :: Map_mutate k f t
  end.

Definition Map_keys {V : Type} (l : list (MeshRef * V)) : list MeshRef := map fst l.

Fixpoint nodupb (l : list MeshRef) : bool :=
  match l with
  | [] => true
  | k :: t => negb (existsb (Nat.eqb k) t) && nodupb t
  end.

Section Values.
Context {N : JSNumber}.

Record Vector3 : Type := mkVector3 { x : number; y : number; z : number }.
Record Ray : Type := mkRay { origin : Vector3; direction : Vector3 }.
Record Sphere : Type := mkSphere { center : Vector3; radius : number }.

End Values.

(** [THREE.FrontSide] and its siblings. *)
Inductive Side : Type := FrontSide | BackSide | DoubleSide.

(** The options object passed to [new MeshBVH]. *)
Record MeshBVHOptions : Type := { maxDepth : Z; maxLeafTris : Z }.

(* ===================================================================== *)
(** ** The libraries the manager calls *)
(* ===================================================================== *)

(** three.js: matrices, vectors, boxes, geometries, and what
    [Object3D.updateMatrixWorld] computes. *)
Class Three (N : JSNumber) : Type := {
  Matrix4 : Type;
  Matrix4_identity : Matrix4;
  Matrix4_invert : Matrix4 -> Matrix4;
  Vector3_applyMatrix4 : Vector3 -> Matrix4 -> Vector3;
  Vector3_normalize : Vector3 -> Vector3;
  Vector3_multiplyScalar : Vector3 -> number -> Vector3;
  Vector3_add : Vector3 -> Vector3 -> Vector3;
  Vector3_distanceTo : Vector3 -> Vector3 -> number;
  Ray_applyMatrix4 : Ray -> Matrix4 -> Ray;
  Box3 : Type;
  Box3_setFromCenterAndSize : Vector3 -> Vector3 -> Box3;
  Box3_expandByPoint : Box3 -> Vector3 -> Box3;
  BufferGeometry : Type;
  BufferAttribute : Type;
  geometry_index : BufferGeometry -> option BufferAttribute;
  toNonIndexed : BufferGeometry -> BufferGeometry;
  (** position, rotation, scale and parent chain of an object: everything
      [updateMatrixWorld] reads to recompute [matrixWorld] *)
  Placement : Type;
  worldMatrixOf : Placement -> Matrix4;
  Material : Type;
  Face : Type;
  Vector2 : Type
}.

Section Hits.
Context {N : JSNumber} {T : Three N}.

(** The fields of a three-mesh-bvh hit that the manager reads. *)
Record BVHHit : Type := {
  hit_point : Vector3;
  hit_face : option Face;
  hit_faceIndex : option nat;
  hit_uv : option Vector2;
  hit_uv2 : option Vector2
}.

(** [THREE.Intersection] as the manager builds it. *)
Record Intersection : Type := {
  distance : number;
  point : Vector3;
  face : option Face;
  faceIndex : option nat;
  object : MeshRef;
  uv : option Vector2;
  uv2 : option Vector2
}.

(** A [THREE.Mesh], as far as the manager touches it. *)
Record Mesh : Type := {
  geometry : option BufferGeometry;
  placement : Placement;
  matrixWorld : Matrix4;
  material : Material
}.

(** [mesh.updateMatrixWorld(true)]: recompute the world matrix from the
    object's placement; the geometry and the material are not touched.
    three.js goes on to the object's descendants; the registered meshes
    are taken to have none among the meshes of the scene. *)
Definition updateMatrixWorld (o : Mesh) : Mesh :=
  {| geometry := geometry o;
     placement := placement o;
     matrixWorld := worldMatrixOf (placement o);
     material := material o |}.

(** [mesh.geometry = g]. *)
Definition with_geometry (o : Mesh) (g : option BufferGeometry) : Mesh :=
  {| geometry := g;
     placement := placement o;
     matrixWorld := matrixWorld o;
     material := material o |}.

End Hits.

(** Result of an operation that may throw. *)
Inductive Completion (E A : Type) : Type :=
| Normal (a : A)
| Throw (e : E).
Arguments Normal {E A} a.
Arguments Throw {E A} e.

(** three-mesh-bvh: construction (which may throw) and the two queries. *)
Class ThreeMeshBVH {N : JSNumber} (T : Three N) : Type := {
  MeshBVH : Type;
  Error : Type;
  MeshBVH_new : BufferGeometry -> MeshBVHOptions -> Completion Error MeshBVH;
  raycastFirst : MeshBVH -> Ray -> Side -> option BVHHit;
  intersectsBox : MeshBVH -> Box3 -> Matrix4 -> bool
}.

(* ===================================================================== *)
(** ** A concrete world: horizontal floors, translated meshes *)
(* ===================================================================== *)

(** An executable instance of the three interfaces, used to run the
    manager on concrete scenes.  Numbers are rationals extended with the
    two infinities and NaN; a world matrix is a translation; a geometry is
    a set of horizontal, upward-facing floors given by their local height;
    a ray cast hits the highest floor not above the origin of a ray that
    points straight down.  Distances are sums of coordinate differences,
    which is the Euclidean distance along an axis. *)
Module Flat.

Inductive num : Type := NaN | NegInf | Fin (q : Q) | PosInf.

Definition Qltb (a b : Q) : bool := (Qnum a * QDen b <? Qnum b * QDen a)%Z.

Definition ltb (a b : num) : bool :=
  match a, b with
  | Fin p, Fin q => Qltb p q
  | NegInf, Fin _ => true
  | NegInf, PosInf => true
  | Fin _, PosInf => true
  | _, _ => false
  end.

Definition inf_of (c : comparison) : num :=
  match c with Lt => NegInf | Gt => PosInf | Eq => NaN end.

Definition neg (a : num) : num :=
  match a with
  | NaN => NaN
  | NegInf => PosInf
  | PosInf => NegInf
  | Fin q => Fin (Qred (- q))
  end.

Definition mul (a b : num) : num :=
  match a, b with
  | NaN, _ => NaN
  | _, NaN => NaN
  | Fin p, Fin q => Fin (Qred (p * q))
  | Fin p, PosInf => inf_of (p ?= 0)%Q
  | PosInf, Fin p => inf_of (p ?= 0)%Q
  | Fin p, NegInf => inf_of (0 ?= p)%Q
  | NegInf, Fin p => inf_of (0 ?= p)%Q
  | PosInf, PosInf => PosInf
  | NegInf, NegInf => PosInf
  | _, _ => NegInf
  end.

Definition add (a b : num) : num :=
  match a, b with
  | NaN, _ => NaN
  | _, NaN => NaN
  | Fin p, Fin q => Fin (Qred (p + q))
  | PosInf, NegInf => NaN
  | NegInf, PosInf => NaN
  | PosInf, _ => PosInf
  | _, PosInf => PosInf
  | _, _ => NegInf
  end.

Definition sub (a b : num) : num := add a (neg b).

Definition abs (a : num) : num :=
  match a with
  | NaN => NaN
  | Fin q => Fin (Qred (Qabs q))
  | _ => PosInf
  end.

Definition div (a b : num) : num :=
  match a, b with
  | Fin p, Fin q => if Qeq_bool q 0 then NaN else Fin (Qred (p / q))
  | _, _ => NaN
  end.

#[export] Instance JS : JSNumber := {|
  number := num;
  literal := Fin;
  Infinity := PosInf;
  num_lt := ltb;
  num_mul := mul;
  num_sub := sub;
  Math_abs := abs
|}.

Definition vec (a b c : Q) : Vector3 := mkVector3 (Fin a) (Fin b) (Fin c).

Definition vmap2 (f : num -> num -> num) (a b : Vector3) : Vector3 :=
  mkVector3 (f (x a) (x b)) (f (y a) (y b)) (f (z a) (z b)).

Definition vscale (a : Vector3) (s : num) : Vector3 :=
  mkVector3 (mul (x a) s) (mul (y a) s) (mul (z a) s).

Definition norm1 (a : Vector3) : num :=
  add (add (abs (x a)) (abs (y a))) (abs (z a)).

Definition normalize (a : Vector3) : Vector3 :=
  match norm1 a with
  | Fin n => if Qeq_bool n 0 then a
             else mkVector3 (div (x a) (Fin n)) (div (y a) (Fin n)) (div (z a) (Fin n))
  | _ => mkVector3 NaN NaN NaN
  end.

Definition nmin (a b : num) : num := if ltb b a then b else a.
Definition nmax (a b : num) : num := if ltb a b then b else a.

Record floors : Type := { g_indexed : bool; g_floors : list Q }.

Definition highest_floor (oy : Q) (hs : list Q) : option Q :=
  fold_left
    (fun best h =>
       if Qle_bool h oy
       then match best with
            | None => Some h
            | Some b => if Qltb b h then Some h else best
            end
       else best)
    hs None.

#[export] Instance three : Three JS := {|
  Matrix4 := Vector3;
  Matrix4_identity := vec 0 0 0;
  Matrix4_invert := fun m => mkVector3 (neg (x m)) (neg (y m)) (neg (z m));
  Vector3_applyMatrix4 := fun v m => vmap2 add v m;
  Vector3_normalize := normalize;
  Vector3_multiplyScalar := vscale;
  Vector3_add := vmap2 add;
  Vector3_distanceTo := fun a b => norm1 (vmap2 sub a b);
  Ray_applyMatrix4 := fun r m => mkRay (vmap2 add (origin r) m) (direction r);
  Box3 := (Vector3 * Vector3)%type;
  Box3_setFromCenterAndSize := fun c s =>
    (vmap2 sub c (vscale s (Fin (1 # 2))), vmap2 add c (vscale s (Fin (1 # 2))));
  Box3_expandByPoint := fun b p => (vmap2 nmin (fst b) p, vmap2 nmax (snd b) p);
  BufferGeometry := floors;
  BufferAttribute := unit;
  geometry_index := fun g => if g_indexed g then Some tt else None;
  toNonIndexed := fun g => {| g_indexed := false; g_floors := g_floors g |};
  Placement := Vector3;
  worldMatrixOf := fun p => p;
  Material := unit;
  Face := unit;
  Vector2 := unit
|}.

Definition cast_down (hs : list Q) (r : Ray) (s : Side) : option BVHHit :=
  match s, x (direction r), y (direction r), z (direction r), y (origin r) with
  | FrontSide, Fin dx, Fin dy, Fin dz, Fin oy =>
      if Qeq_bool dx 0 && Qltb dy 0 && Qeq_bool dz 0
      then match highest_floor oy hs with
           | Some h =>
               Some {| hit_point := mkVector3 (x (origin r)) (Fin h) (z (origin r));
                       hit_face := Some tt;
                       hit_faceIndex := Some 0;
                       hit_uv := None;
                       hit_uv2 := None |}
           | None => None
           end
      else None
  | _, _, _, _, _ => None
  end.

#[export] Instance bvhlib : ThreeMeshBVH three := {|
  MeshBVH := list Q;
  Error := string;
  MeshBVH_new := fun g _ =>
    match g_floors g with
    | [] => Throw "geometry has no faces"%string
    | l => Normal l
    end;
  raycastFirst := cast_down;
  intersectsBox := fun hs b _ =>
    existsb (fun h => negb (ltb (Fin h) (y (fst b))) && negb (ltb (y (snd b)) (Fin h)))
            hs
|}.

End Flat.

(* ===================================================================== *)
(** ** The manager *)
(* ===================================================================== *)

(** [Map.prototype.forEach]: the callback sees the values in insertion
    order; [s] is the state the callback's closure updates. *)
Definition Map_forEach {V S : Type} (f : S -> V -> S) (l : list (MeshRef * V)) (s : S) : S :=
  fold_left (fun s kv => f s (snd kv)) l s.

(** A parameter with a default value: [None] is an omitted argument. *)
Definition default_arg {A : Type} (given : option A) (dflt : A) : A :=
  match given with Some a => a | None => dflt end.

Section Manager.
Context {N : JSNumber} {T : Three N} {B : ThreeMeshBVH T}.

(** [interface BVHMesh]. *)
Record BVHMesh : Type := {
  mesh : MeshRef;
  bvh : MeshBVH;
  invMatrixWorld : Matrix4
}.

(** What the manager does besides reading and writing its registry and the
    meshes: console output and constructions of acceleration structures. *)
Inductive Event : Type :=
| ConsoleWarn (m : MeshRef)
| ConsoleError (e : Error) (m : MeshRef)
| NewMeshBVH (g : BufferGeometry).

(** The meshes of the scene (shared with the caller, who may mutate them
    between calls), the private map [bvhMeshes], and the events so far,
    latest first. *)
Record World : Type := {
  heap : MeshRef -> Mesh;
  bvhMeshes : list (MeshRef * BVHMesh);
  trace : list Event
}.

Definition set_heap (w : World) (h : MeshRef -> Mesh) : World :=
  {| heap := h; bvhMeshes := bvhMeshes w; trace := trace w |}.

Definition set_bvhMeshes (w : World) (l : list (MeshRef * BVHMesh)) : World :=
  {| heap := heap w; bvhMeshes := l; trace := trace w |}.

Definition emit (ev : Event) (w : World) : World :=
  {| heap := heap w; bvhMeshes := bvhMeshes w; trace := ev :: trace w |}.

(** The heap with the object at [m] replaced. *)
Definition store (h : MeshRef -> Mesh) (m : MeshRef) (o : Mesh) : MeshRef -> Mesh :=
  fun k => if Nat.eqb k m then o else h k.

(** A new manager over the caller's scene. *)
Definition new_BVHManager (scene : MeshRef -> Mesh) : World :=
  {| heap := scene; bvhMeshes := []; trace := [] |}.

(** *** State and exceptions *)

Definition M (A : Type) : Type := World -> Completion Error A * World.

Definition ret {A : Type} (a : A) : M A := fun w => (Normal a, w).

(** A thrown error skips the rest; what was written before it stays. *)
Definition bind {A C : Type} (c : M A) (k : A -> M C) : M C :=
  fun w =>
    match c w with
    | (Normal a, w') => k a w'
    | (Throw e, w') => (Throw e, w')
    end.

Definition try_catch {A : Type} (body : M A) (handler : Error -> M A) : M A :=
  fun w =>
    match body w with
    | (Normal a, w') => (Normal a, w')
    | (Throw e, w') => handler e w'
    end.

Notation "x <- c ;; k" := (bind c (fun x => k))
  (at level 61, c at next level, right associativity).
Notation "c ;;; k" := (bind c (fun _ => k))
  (at level 61, right associativity).

Definition read_mesh (m : MeshRef) : M Mesh := fun w => (Normal (heap w m), w).

Definition write_mesh (m : MeshRef) (o : Mesh) : M unit :=
  fun w => (Normal tt, set_heap w (store (heap w) m o)).

Definition read_bvhMeshes : M (list (MeshRef * BVHMesh)) :=
  fun w => (Normal (bvhMeshes w), w).

Definition modify_bvhMeshes (f : list (MeshRef * BVHMesh) -> list (MeshRef * BVHMesh))
  : M unit :=
  fun w => (Normal tt, set_bvhMeshes w (f (bvhMeshes w))).

Definition console_warn (m : MeshRef) : M unit :=
  fun w => (Normal tt, emit (ConsoleWarn m) w).

Definition console_error (e : Error) (m : MeshRef) : M unit :=
  fun w => (Normal tt, emit (ConsoleError e m) w).

(** [new MeshBVH(geometry, options)]. *)
Definition new_MeshBVH (g : BufferGeometry) (opts : MeshBVHOptions) : M MeshBVH :=
  fun w => (MeshBVH_new g opts, emit (NewMeshBVH g) w).

(** [invMatrixWorld.copy(m).invert()] on the matrix object held by the
    entry of [k]: the entry in the map sees the new value. *)
Definition set_invMatrixWorld (mat : Matrix4) (e : BVHMesh) : BVHMesh :=
  {| mesh := mesh e; bvh := bvh e; invMatrixWorld := mat |}.

(** *** buildBVH (lines 31-77) *)

Definition buildBVH (m : MeshRef) : M (option BVHMesh) :=
  o <- read_mesh m ;;
  match geometry o with
  | None =>
      console_warn m ;;;
      ret None
  | Some g =>
      entries <- read_bvhMeshes ;;
      if Map_has m entries then ret (Map_get m entries)
      else
        try_catch
          (g' <- match geometry_index g with
                 | Some _ => ret g
                 | None =>
                     write_mesh m (with_geometry o (Some (toNonIndexed g))) ;;;
                     ret (toNonIndexed g)
                 end ;;
           b <- new_MeshBVH g' {| maxDepth := 40; maxLeafTris := 10 |} ;;
           let bvhMesh := {| mesh := m; bvh := b; invMatrixWorld := Matrix4_identity |} in
           modify_bvhMeshes (Map_set m bvhMesh) ;;;
           o1 <- read_mesh m ;;
           write_mesh m (updateMatrixWorld o1) ;;;
           o2 <- read_mesh m ;;
           let inv := Matrix4_invert (matrixWorld o2) in
           modify_bvhMeshes (Map_mutate m (set_invMatrixWorld inv)) ;;;
           ret (Some (set_invMatrixWorld inv bvhMesh)))
          (fun error =>
             console_error error m ;;;
             ret None)
  end.

(** *** removeBVH, updateMatrices, clear, getAllBVHMeshes *)

Definition removeBVH (m : MeshRef) (w : World) : World :=
  set_bvhMeshes w (Map_delete m (bvhMeshes w)).

(** One turn of the [forEach] of [updateMatrices]: the mesh of the entry
    gets its world matrix recomputed, the entry the inverse of it. *)
Fixpoint updateMatrices_loop (h : MeshRef -> Mesh) (l : list (MeshRef * BVHMesh))
  : (MeshRef -> Mesh) * list (MeshRef * BVHMesh) :=
  match l with
  | [] => (h, [])
  | (k, bvhMesh) :: t =>
      let h1 := store h (mesh bvhMesh) (updateMatrixWorld (h (mesh bvhMesh))) in
      let e := set_invMatrixWorld (Matrix4_invert (matrixWorld (h1 (mesh bvhMesh)))) bvhMesh in
      let (h2, t') := updateMatrices_loop h1 t in
      (h2, (k, e) :: t')
  end.

Definition updateMatrices (w : World) : World :=
  let (h, l) := updateMatrices_loop (heap w) (bvhMeshes w) in
  {| heap := h; bvhMeshes := l; trace := trace w |}.

Definition clear (w : World) : World :=
  set_bvhMeshes w (Map_clear (bvhMeshes w)).

Definition getAllBVHMeshes (w : World) : list BVHMesh := map snd (bvhMeshes w).

(** *** raycast (lines 101-140) *)

(** The closure's variables [closestHit] and [closestDistance]. *)
Definition Closest : Type := (option Intersection * number)%type.

Definition raycast_visit (w : World) (ray : Ray) (acc : Closest) (bvhMesh : BVHMesh)
  : Closest :=
  let localRay := Ray_applyMatrix4 ray (invMatrixWorld bvhMesh) in
  match raycastFirst (bvh bvhMesh) localRay FrontSide with
  | Some hit =>
      let worldPoint :=
        Vector3_applyMatrix4 (hit_point hit) (matrixWorld (heap w (mesh bvhMesh))) in
      let distance := Vector3_distanceTo (origin ray) worldPoint in
      if num_lt distance (snd acc)
      then (Some {| distance := distance;
                    point := worldPoint;
                    face := hit_face hit;
                    faceIndex := hit_faceIndex hit;
                    object := mesh bvhMesh;
                    uv := hit_uv hit;
                    uv2 := hit_uv2 hit |},
            distance)
      else acc
  | None => acc
  end.

Definition raycast (w : World) (ray : Ray) (maxDistance : option number)
  : option Intersection :=
  let maxDistance := default_arg maxDistance Infinity in
  fst (Map_forEach (raycast_visit w ray) (bvhMeshes w) (None, maxDistance)).

(** *** sphereCast (lines 146-215) *)

Definition sphereCast_visit (w : World) (sphere : Sphere) (direction : Vector3)
    (maxDistance : number) (acc : Closest) (bvhMesh : BVHMesh) : Closest :=
  let localSphere :=
    mkSphere (Vector3_applyMatrix4 (center sphere) (invMatrixWorld bvhMesh))
             (radius sphere) in
  let box :=
    Box3_setFromCenterAndSize
      (center localSphere)
      (mkVector3 (num_mul (radius localSphere) (literal 2))
                 (num_mul (radius localSphere) (literal 2))
                 (num_mul (radius localSphere) (literal 2))) in
  let localDirection :=
    Vector3_normalize (Vector3_applyMatrix4 direction (invMatrixWorld bvhMesh)) in
  (* [multiplyScalar] scales [localDirection] itself: the ray below is
     built from the scaled vector *)
  let localDirection := Vector3_multiplyScalar localDirection maxDistance in
  let endPoint := Vector3_add (center localSphere) localDirection in
  let box := Box3_expandByPoint box endPoint in
  let boxToBvh := Matrix4_identity in
  if intersectsBox (bvh bvhMesh) box boxToBvh
  then
    let ray := mkRay (center localSphere) localDirection in
    match raycastFirst (bvh bvhMesh) ray FrontSide with
    | Some hit =>
        let worldPoint :=
          Vector3_applyMatrix4 (hit_point hit) (matrixWorld (heap w (mesh bvhMesh))) in
        let distance := Vector3_distanceTo (center sphere) worldPoint in
        if num_lt distance (snd acc)
        then (Some {| distance := distance;
                      point := worldPoint;
                      face := hit_face hit;
                      faceIndex := hit_faceIndex hit;
                      object := mesh bvhMesh;
                      uv := hit_uv hit;
                      uv2 := hit_uv2 hit |},
              distance)
        else acc
    | None => acc
    end
  else acc.

Definition sphereCast (w : World) (sphere : Sphere) (direction : Vector3)
    (maxDistance : option number) : option Intersection :=
  let maxDistance := default_arg maxDistance Infinity in
  fst (Map_forEach (sphereCast_visit w sphere direction maxDistance)
                   (bvhMeshes w) (None, maxDistance)).

(** *** getGroundHeight (lines 221-234), isOnGround (lines 239-255) *)

(** The probe of [getGroundHeight]: from height [maxDistance] above the
    world origin plane, straight down. *)
Definition ground_probe (px pz maxDistance : number) : Ray :=
  mkRay (mkVector3 px maxDistance pz)
        (mkVector3 (literal 0) (literal (-1)) (literal 0)).

Definition getGroundHeight (w : World) (px pz : number) (maxDistance : option number)
  : option number :=
  let maxDistance := default_arg maxDistance (literal 100) in
  let ray := ground_probe px pz maxDistance in
  match raycast w ray (Some (num_mul maxDistance (literal 2))) with
  | Some hit => Some (y (point hit))
  | None => None
  end.

Definition isOnGround (w : World) (position : Vector3)
    (threshold maxDistance : option number) : bool :=
  let threshold := default_arg threshold (literal (1 # 10)) in
  let maxDistance := default_arg maxDistance (literal 2) in
  match getGroundHeight w (x position) (z position) (Some maxDistance) with
  | None => false
  | Some groundHeight =>
      num_lt (Math_abs (num_sub (y position) groundHeight)) threshold
  end.

End Manager.

(* ===================================================================== *)
(** ** Notions the properties are stated with *)
(* ===================================================================== *)

Section Notions.
Context {N : JSNumber} {T : Three N} {B : ThreeMeshBVH T}.

(** A hit of the library on the mesh of an entry, carried to world space
    with the mesh's current world matrix and measured from [from]. *)
Definition world_hit (w : World) (from : Vector3) (bvhMesh : BVHMesh) (hit : BVHHit)
  : Intersection :=
  let worldPoint :=
    Vector3_applyMatrix4 (hit_point hit) (matrixWorld (heap w (mesh bvhMesh))) in
  {| distance := Vector3_distanceTo from worldPoint;
     point := worldPoint;
     face := hit_face hit;
     faceIndex := hit_faceIndex hit;
     object := mesh bvhMesh;
     uv := hit_uv hit;
     uv2 := hit_uv2 hit |}.

(** The per-mesh hit of a ray: the library's first hit of the ray taken to
    the mesh's local space by the cached inverse world matrix. *)
Definition raycast_mesh_hit (w : World) (ray : Ray) (bvhMesh : BVHMesh)
  : option Intersection :=
  option_map (world_hit w (origin ray) bvhMesh)
             (raycastFirst (bvh bvhMesh)
                           (Ray_applyMatrix4 ray (invMatrixWorld bvhMesh)) FrontSide).

Definition hits_of (f : BVHMesh -> option Intersection) (l : list (MeshRef * BVHMesh))
  : list Intersection :=
  flat_map (fun kv => match f (snd kv) with Some h => [h] | None => [] end) l.

(** All per-mesh hits of a ray, one per registered mesh that is hit. *)
Definition raycast_hits (w : World) (ray : Ray) : list Intersection :=
  hits_of (raycast_mesh_hit w ray) (bvhMeshes w).

(** The sphere's centre in the local space of an entry, and the vector
    the code uses as local direction: the direction put through
    [applyMatrix4] with the same matrix, normalised, then scaled by the
    range. *)
Definition local_center (sphere : Sphere) (bvhMesh : BVHMesh) : Vector3 :=
  Vector3_applyMatrix4 (center sphere) (invMatrixWorld bvhMesh).

Definition local_direction (direction : Vector3) (maxDistance : number)
    (bvhMesh : BVHMesh) : Vector3 :=
  Vector3_multiplyScalar
    (Vector3_normalize (Vector3_applyMatrix4 direction (invMatrixWorld bvhMesh)))
    maxDistance.

(** The box around the local sphere, stretched to the end of its sweep. *)
Definition swept_box (sphere : Sphere) (direction : Vector3) (maxDistance : number)
    (bvhMesh : BVHMesh) : Box3 :=
  let d := num_mul (radius sphere) (literal 2) in
  Box3_expandByPoint
    (Box3_setFromCenterAndSize (local_center sphere bvhMesh) (mkVector3 d d d))
    (Vector3_add (local_center sphere bvhMesh)
                 (local_direction direction maxDistance bvhMesh)).

(** The per-mesh hit of a sphere cast: when the swept box meets the mesh,
    the first hit of the ray from the local centre along the local
    direction. *)
Definition sphereCast_mesh_hit (w : World) (sphere : Sphere) (direction : Vector3)
    (maxDistance : number) (bvhMesh : BVHMesh) : option Intersection :=
  if intersectsBox (bvh bvhMesh) (swept_box sphere direction maxDistance bvhMesh)
                   Matrix4_identity
  then option_map (world_hit w (center sphere) bvhMesh)
                  (raycastFirst (bvh bvhMesh)
                                (mkRay (local_center sphere bvhMesh)
                                       (local_direction direction maxDistance bvhMesh))
                                FrontSide)
  else None.

Definition sphereCast_hits (w : World) (sphere : Sphere) (direction : Vector3)
    (maxDistance : number) : list Intersection :=
  hits_of (sphereCast_mesh_hit w sphere direction maxDistance) (bvhMeshes w).

(** What one turn of a cast's loop does with a per-mesh hit. *)
Definition closer (acc : Closest) (c : option Intersection) : Closest :=
  match c with
  | Some h => if num_lt (distance h) (snd acc) then (Some h, distance h) else acc
  | None => acc
  end.

(** [h] is a closest one of [hits] within [range]: it is one of them, it
    is nearer than [range], and none of them is nearer than [h]. *)
Definition closest_within (range : number) (hits : list Intersection) (h : Intersection)
  : Prop :=
  In h hits /\
  num_lt (distance h) range = true /\
  forall h', In h' hits -> num_lt (distance h') (distance h) = false.

Definition none_within (range : number) (hits : list Intersection) : Prop :=
  forall h', In h' hits -> num_lt (distance h') range = false.

(** The map holds each mesh at most once, and the entry of a mesh names
    that mesh. *)
Definition well_formed (w : World) : bool :=
  nodupb (Map_keys (bvhMeshes w)) &&
  forallb (fun kv => Nat.eqb (fst kv) (mesh (snd kv))) (bvhMeshes w).

(** The geometry [buildBVH] builds from. *)
Definition ensured (g : BufferGeometry) : BufferGeometry :=
  match geometry_index g with Some _ => g | None => toNonIndexed g end.

Definition build_options : MeshBVHOptions := {| maxDepth := 40; maxLeafTris := 10 |}.

(** The world when [buildBVH(m)] reaches [new MeshBVH]: a geometry
    without index has been replaced by its non-indexed conversion. *)
Definition prepared (m : MeshRef) (g : BufferGeometry) (w : World) : World :=
  match geometry_index g with
  | Some _ => w
  | None => set_heap w (store (heap w) m (with_geometry (heap w m) (Some (toNonIndexed g))))
  end.

(** The world after [buildBVH(m)] has built [b] for a mesh that had no
    entry, and the entry it returns. *)
Definition built (m : MeshRef) (g : BufferGeometry) (b : MeshBVH) (w : World) : World :=
  let w1 := emit (NewMeshBVH (ensured g)) (prepared m g w) in
  let w2 :=
    set_bvhMeshes
      w1 (Map_set m {| mesh := m; bvh := b; invMatrixWorld := Matrix4_identity |}
                  (bvhMeshes w1)) in
  let w3 := set_heap w2 (store (heap w2) m (updateMatrixWorld (heap w2 m))) in
  set_bvhMeshes
    w3 (Map_mutate m (set_invMatrixWorld (Matrix4_invert (matrixWorld (heap w3 m))))
                   (bvhMeshes w3)).

Definition built_entry (m : MeshRef) (g : BufferGeometry) (b : MeshBVH) (w : World)
  : BVHMesh :=
  {| mesh := m;
     bvh := b;
     invMatrixWorld := Matrix4_invert (matrixWorld (heap (built m g b w) m)) |}.

(** The caller replaces the state of mesh [m]. *)
Definition caller_writes (m : MeshRef) (o : Mesh) (w : World) : World :=
  set_heap w (store (heap w) m o).

(** The queries do not depend on mesh [m]: no hit names it, and its state
    can be anything. *)
Definition ignores (w : World) (m : MeshRef) : Prop :=
  (forall ray h, In h (raycast_hits w ray) -> object h <> m) /\
  (forall sphere direction d h,
      In h (sphereCast_hits w sphere direction d) -> object h <> m) /\
  (forall ray d h, raycast w ray d = Some h -> object h <> m) /\
  (forall sphere direction d h, sphereCast w sphere direction d = Some h -> object h <> m) /\
  (forall o : Mesh,
      (forall ray d, raycast (caller_writes m o w) ray d = raycast w ray d) /\
      (forall sphere direction d,
          sphereCast (caller_writes m o w) sphere direction d
          = sphereCast w sphere direction d) /\
      (forall px pz d,
          getGroundHeight (caller_writes m o w) px pz d = getGroundHeight w px pz d) /\
      (forall position threshold d,
          isOnGround (caller_writes m o w) position threshold d
          = isOnGround w position threshold d)).

(** The four queries answer the same in two worlds. *)
Definition same_answers (w1 w2 : World) : Prop :=
  (forall ray d, raycast w1 ray d = raycast w2 ray d) /\
  (forall sphere direction d,
      sphereCast w1 sphere direction d = sphereCast w2 sphere direction d) /\
  (forall px pz d, getGroundHeight w1 px pz d = getGroundHeight w2 px pz d) /\
  (forall position threshold d,
      isOnGround w1 position threshold d = isOnGround w2 position threshold d).

(** *** Sequences of calls *)

Inductive Op : Type :=
| CallBuildBVH (m : MeshRef)
| CallRemoveBVH (m : MeshRef)
| CallUpdateMatrices
| CallRaycast (ray : Ray) (maxDistance : option number)
| CallSphereCast (sphere : Sphere) (direction : Vector3) (maxDistance : option number)
| CallClear
| CallerWrites (m : MeshRef) (o : Mesh).

Inductive Answer : Type :=
| Built (r : Completion Error (option BVHMesh))
| Hit (r : option Intersection)
| Done.

Definition run_op (op : Op) (w : World) : Answer * World :=
  match op with
  | CallBuildBVH m => let (r, w') := buildBVH m w in (Built r, w')
  | CallRemoveBVH m => (Done, removeBVH m w)
  | CallUpdateMatrices => (Done, updateMatrices w)
  | CallRaycast ray d => (Hit (raycast w ray d), w)
  | CallSphereCast sphere direction d => (Hit (sphereCast w sphere direction d), w)
  | CallClear => (Done, clear w)
  | CallerWrites m o => (Done, caller_writes m o w)
  end.

(** The calls with their answers, first call first, and the final world. *)
Fixpoint run (ops : list Op) (w : World) : list (Op * Answer) * World :=
  match ops with
  | [] => ([], w)
  | op :: rest =>
      let (a, w1) := run_op op w in
      let (history, w2) := run rest w1 in
      ((op, a) :: history, w2)
  end.

(** [call] takes the entry of [m] away: [removeBVH(m)] or [clear()]. *)
Definition unregisters (m : MeshRef) (call : Op * Answer) : Prop :=
  fst call = CallRemoveBVH m \/ fst call = CallClear.

(** Some [buildBVH(m)] returned an entry, and no [removeBVH(m)] or
    [clear()] came after it. *)
Definition built_since_removed (m : MeshRef) (history : list (Op * Answer)) : Prop :=
  exists before e after,
    history = before ++ (CallBuildBVH m, Built (Normal (Some e))) :: after /\
    Forall (fun call => ~ unregisters m call) after.

Definition is_buildBVH_of (m : MeshRef) (op : Op) : bool :=
  match op with CallBuildBVH m' => Nat.eqb m m' | _ => false end.

End Notions.

(** Every cached inverse is the inverse of the current world matrix of the
    mesh its entry names. *)
Definition coherent {N : JSNumber} {T : Three N} {B : ThreeMeshBVH T} (w : World) : Prop :=
  forall k e, In (k, e) (bvhMeshes w) ->
              invMatrixWorld e = Matrix4_invert (matrixWorld (heap w (mesh e))).

(** Some entry of the map names mesh [k]. *)
Definition names {N : JSNumber} {T : Three N} {B : ThreeMeshBVH T}
    (l : list (MeshRef * BVHMesh)) (k : MeshRef) : bool :=
  existsb (fun kv => Nat.eqb (mesh (snd kv)) k) l.

Definition is_caller_write {N : JSNumber} {T : Three N} {B : ThreeMeshBVH T} (op : Op)
  : bool :=
  match op with CallerWrites _ _ => true | _ => false end.

(* ===================================================================== *)
(** ** The registration hook (hooks/useBVHRegistration) *)
(* ===================================================================== *)

(** [Set<THREE.Mesh>]: the members in insertion order, each once. *)
Definition Set_has (m : MeshRef) (s : list MeshRef) : bool := existsb (Nat.eqb m) s.

Definition Set_add (m : MeshRef) (s : list MeshRef) : list MeshRef :=
  if Set_has m s then s else s ++ [m].

Definition Set_delete (m : MeshRef) (s : list MeshRef) : list MeshRef :=
  filter (fun k => negb (Nat.eqb m k)) s.

(** [meshes.includes(mesh)] on an array of meshes, [null]s and
    [undefined]s ([None]). *)
Definition includes (meshes : list (option MeshRef)) (m : MeshRef) : bool :=
  existsb (fun o => match o with Some k => Nat.eqb k m | None => false end) meshes.

Section Hook.
Context {N : JSNumber} {T : Three N} {B : ThreeMeshBVH T}.

(** What one instance of the hook keeps between renders:
    [registeredRef.current], and the effect's cleanup when one is
    pending.  The cleanup is a closure over the [meshes] of the render
    that installed it; while it is pending the interval that calls
    [updateMatrices] every 100 ms is running. *)
Record HookRefs : Type := {
  registeredRef : list MeshRef;
  pending : option (list (option MeshRef))
}.

Definition new_hook : HookRefs := {| registeredRef := []; pending := None |}.

(** The callback of [meshes.forEach] in the effect.  By its type every
    element that is not [null] or [undefined] is a [THREE.Mesh]. *)
Definition register_mesh (registered : list MeshRef) (mesh : option MeshRef)
  : M (list MeshRef) :=
  match mesh with
  | Some m =>
      if negb (Set_has m registered)
      then bind (buildBVH m)
                (fun bvhMesh =>
                   match bvhMesh with
                   | Some _ => ret (Set_add m registered)
                   | None => ret registered
                   end)
      else ret registered
  | None => ret registered
  end.

Fixpoint register_meshes (meshes : list (option MeshRef)) (registered : list MeshRef)
  : M (list MeshRef) :=
  match meshes with
  | [] => ret registered
  | mesh :: rest =>
      bind (register_mesh registered mesh) (fun r => register_meshes rest r)
  end.

(** The effect: nothing when disabled; otherwise build what is not yet
    registered, start the interval and return the cleanup. *)
Definition effect (meshes : list (option MeshRef)) (enabled : bool) (h : HookRefs)
  : M HookRefs :=
  if negb enabled then ret {| registeredRef := registeredRef h; pending := None |}
  else
    bind (register_meshes meshes (registeredRef h))
         (fun r => ret {| registeredRef := r; pending := Some meshes |}).

(** The callback of [registeredRef.current.forEach] in the cleanup. *)
Definition cleanup_visit (meshes : list (option MeshRef))
    (acc : list MeshRef * World) (mesh : MeshRef) : list MeshRef * World :=
  if negb (includes meshes mesh)
  then (Set_delete mesh (fst acc), removeBVH mesh (snd acc))
  else acc.

(** The cleanup of an effect that ran with [meshes]: the interval is
    cleared, and the registered meshes that [meshes] does not include are
    removed from the manager and from [registeredRef]. *)
Definition cleanup (meshes : list (option MeshRef)) (registered : list MeshRef) (w : World)
  : list MeshRef * World :=
  fold_left (cleanup_visit meshes) registered (registered, w).

Definition run_pending_cleanup (h : HookRefs) : M HookRefs :=
  fun w =>
    match pending h with
    | Some meshes =>
        let (r, w') := cleanup meshes (registeredRef h) w in
        (Normal {| registeredRef := r; pending := None |}, w')
    | None => (Normal h, w)
    end.

(** What happens to an instance of the hook: a render with new
    dependencies (the pending cleanup runs, then the effect), the
    component's unmount (the pending cleanup runs), and a tick of the
    interval. *)
Inductive HookEvent : Type :=
| Render (meshes : list (option MeshRef)) (enabled : bool)
| Unmount
| Tick.

Definition hook_step (ev : HookEvent) (h : HookRefs) : M HookRefs :=
  match ev with
  | Render meshes enabled => bind (run_pending_cleanup h) (effect meshes enabled)
  | Unmount => run_pending_cleanup h
  | Tick =>
      match pending h with
      | Some _ => fun w => (Normal h, updateMatrices w)
      | None => ret h
      end
  end.

Fixpoint hook_run (events : list HookEvent) (h : HookRefs) : M HookRefs :=
  match events with
  | [] => ret h
  | ev :: rest => bind (hook_step ev h) (hook_run rest)
  end.

(** What the hook keeps true of its set and the manager: the set has no
    repeats, the manager's map is well formed, and every mesh of the set
    has an entry. *)
Definition hook_ok (r : list MeshRef) (w : World) : Prop :=
  NoDup r /\ well_formed w = true /\
  forall k, In k r -> Map_has k (bvhMeshes w) = true.

(** The event hands mesh [k] to the hook. *)
Definition lists (ev : HookEvent) (k : MeshRef) : bool :=
  match ev with
  | Render meshes _ => includes meshes k
  | _ => false
  end.

(** Every render among the events lists mesh [k]. *)
Definition always_listed (events : list HookEvent) (k : MeshRef) : bool :=
  forallb (fun ev => match ev with
                     | Render meshes _ => includes meshes k
                     | _ => true
                     end) events.

(** The pending cleanup, if any, is the closure over a list with [k]. *)
Definition pending_lists (h : HookRefs) (k : MeshRef) : bool :=
  match pending h with
  | Some meshes => includes meshes k
  | None => true
  end.

(** [useBVHSingleMesh(mesh, enabled)]. *)
Definition useBVHSingleMesh (mesh : option MeshRef) (enabled : bool) : HookEvent :=
  Render [mesh] enabled.

End Hook.

(* ===================================================================== *)
(** ** A concrete scene *)
(* ===================================================================== *)

Module Scene.
Import Flat.

Definition slab (indexed : bool) (heights : list Q) (placed world : Vector3) : Mesh :=
  {| geometry := Some {| g_indexed := indexed; g_floors := heights |};
     placement := placed;
     matrixWorld := world;
     material := tt |}.

Definition bare : Mesh :=
  {| geometry := None;
     placement := vec 0 0 0;
     matrixWorld := vec 0 0 0;
     material := tt |}.

(** Mesh 0 is the ground, at height 0.  Mesh 1 is a platform that was
    moved up to height 3 after its world matrix was last computed, with a
    geometry that has no index.  Mesh 2 has a geometry without faces, for
    which the construction throws.  Every other mesh has no geometry. *)
Definition scene : MeshRef -> Mesh :=
  fun k =>
    match k with
    | 0 => slab true [0%Q] (vec 0 0 0) (vec 0 0 0)
    | 1 => slab false [0%Q] (vec 0 3 0) (vec 0 0 0)
    | 2 => slab true [] (vec 0 0 0) (vec 0 0 0)
    | _ => bare
    end.

Definition start : World := new_BVHManager scene.

(** The manager after [buildBVH] of the ground, and then of the platform. *)
Definition ground_only : World := snd (buildBVH 0 start).
Definition both : World := snd (buildBVH 1 ground_only).

(** A ray from height 10 straight down, and a sphere there. *)
Definition down : Vector3 := vec 0 (-1) 0.
Definition probe : Ray := mkRay (vec 0 10 0) down.
Definition ball : Sphere := mkSphere (vec 0 10 0) (Fin 1).

(** Straight up. *)
Definition up : Vector3 := vec 0 1 0.

(** The ground after the caller has taken its geometry away. *)
Definition stripped : World :=
  caller_writes 0 (with_geometry (heap ground_only 0) None) ground_only.

(** The entries the two successful builds return. *)
Definition ground_entry : BVHMesh :=
  {| mesh := 0; bvh := [0%Q]; invMatrixWorld := vec 0 0 0 |}.
Definition platform_entry : BVHMesh :=
  {| mesh := 1; bvh := [0%Q]; invMatrixWorld := vec 0 (-3) 0 |}.

Definition platform_hit : Intersection :=
  {| distance := Fin 7;
     point := vec 0 3 0;
     face := Some tt;
     faceIndex := Some 0;
     object := 1;
     uv := None;
     uv2 := None |}.

Definition ground_hit : Intersection :=
  {| distance := Fin 10;
     point := vec 0 0 0;
     face := Some tt;
     faceIndex := Some 0;
     object := 0;
     uv := None;
     uv2 := None |}.

(** Two meshes with a floor at the same height: the first alone, the
    second with a lower floor besides. *)
Definition tie_scene : MeshRef -> Mesh :=
  fun k =>
    match k with
    | 0 => slab true [0%Q] (vec 0 0 0) (vec 0 0 0)
    | 1 => slab true [0%Q; (-4)%Q] (vec 0 0 0) (vec 0 0 0)
    | _ => bare
    end.

(** Both registered, mesh 0 first; and mesh 1 first. *)
Definition twins : World :=
  snd (buildBVH 1 (snd (buildBVH 0 (new_BVHManager tie_scene)))).
Definition twins_reversed : World :=
  snd (buildBVH 0 (snd (buildBVH 1 (new_BVHManager tie_scene)))).

(** The platform after the caller has moved it up to height 5 without
    telling the manager. *)
Definition moved : World :=
  caller_writes 1 (slab false [0%Q] (vec 0 5 0) (vec 0 5 0)) both.

(** A component that first lists every mesh of the scene (the ground
    twice, and a [null] ref), and then only the platform. *)
Definition first_list : list (option MeshRef) :=
  [Some 0; None; Some 1; Some 2; Some 3; Some 0].
Definition second_list : list (option MeshRef) := [Some 1].

End Scene.

(* ===================================================================== *)
(** ** Facts about the map *)
(* ===================================================================== *)

Section MapFacts.
Variable V : Type.
Implicit Types (l : list (MeshRef * V)) (k : MeshRef).

Lemma Map_has_In l k : Map_has k l = true <-> In k (Map_keys l).
Proof.
  unfold Map_has, Map_keys.
  induction l as [|[k' v] t IH]; simpl.
  - split; [discriminate | tauto].
  - destruct (Nat.eqb_spec k k') as [->|Hne].
    + split; auto.
    + rewrite IH. split; [auto | intros [Heq|Hin]; [congruence | exact Hin]].
Qed.

Lemma Map_has_false l k : Map_has k l = false <-> ~ In k (Map_keys l).
Proof.
  rewrite <- Map_has_In. destruct (Map_has k l); split; congruence.
Qed.

Lemma Map_get_has l k : Map_has k l = true <-> exists v, Map_get k l = Some v.
Proof.
  unfold Map_has. destruct (Map_get k l) as [v|].
  - split; eauto.
  - split; [discriminate | intros [v Hv]; discriminate].
Qed.

Lemma Map_get_None l k : Map_get k l = None <-> Map_has k l = false.
Proof.
  unfold Map_has. destruct (Map_get k l); split; congruence.
Qed.

Lemma Map_get_In l k v : Map_get k l = Some v -> In (k, v) l.
Proof.
  induction l as [|[k' v'] t IH]; simpl; [discriminate|].
  destruct (Nat.eqb_spec k k') as [->|Hne].
  - intros [= ->]. now left.
  - intros Hget. right. auto.
Qed.

Lemma Map_get_set l k k' v :
  Map_get k' (Map_set k v l) = if Nat.eqb k' k then Some v else Map_get k' l.
Proof.
  induction l as [|[k0 v0] t IH]; simpl.
  - destruct (Nat.eqb k' k); reflexivity.
  - destruct (Nat.eqb_spec k k0) as [->|Hne]; simpl.
    + destruct (Nat.eqb k' k0); reflexivity.
    + rewrite IH. destruct (Nat.eqb_spec k' k0) as [->|Hne'].
      * destruct (Nat.eqb_spec k0 k); [congruence | reflexivity].
      * reflexivity.
Qed.

Lemma Map_get_mutate l k k' (f : V -> V) :
  Map_get k' (Map_mutate k f l)
  = if Nat.eqb k' k then option_map f (Map_get k' l) else Map_get k' l.
Proof.
  induction l as [|[k0 v0] t IH]; simpl.
  - destruct (Nat.eqb k' k); reflexivity.
  - destruct (Nat.eqb_spec k k0) as [->|Hne]; simpl.
    + destruct (Nat.eqb k' k0); reflexivity.
    + rewrite IH. destruct (Nat.eqb_spec k' k0) as [->|Hne'].
      * destruct (Nat.eqb_spec k0 k); [congruence | reflexivity].
      * reflexivity.
Qed.

Lemma Map_keys_mutate l k (f : V -> V) : Map_keys (Map_mutate k f l) = Map_keys l.
Proof.
  unfold Map_keys.
  induction l as [|[k0 v0] t IH]; simpl; [reflexivity|].
  destruct (Nat.eqb k k0); simpl; congruence.
Qed.

Lemma Map_keys_set_new l k v :
  Map_has k l = false -> Map_keys (Map_set k v l) = Map_keys l ++ [k].
Proof.
  unfold Map_has, Map_keys.
  induction l as [|[k0 v0] t IH]; simpl; [reflexivity|].
  destruct (Nat.eqb k k0); [discriminate|].
  intros Hnone. simpl. now rewrite IH.
Qed.

Lemma Map_get_delete_other l k k' :
  k' <> k -> Map_get k' (Map_delete k l) = Map_get k' l.
Proof.
  intros Hne.
  induction l as [|[k0 v0] t IH]; simpl; [reflexivity|].
  destruct (Nat.eqb_spec k k0) as [->|Hne0]; simpl.
  - destruct (Nat.eqb_spec k' k0); [congruence | reflexivity].
  - now rewrite IH.
Qed.

Lemma Map_keys_delete_incl l k k' :
  In k' (Map_keys (Map_delete k l)) -> In k' (Map_keys l).
Proof.
  unfold Map_keys.
  induction l as [|[k0 v0] t IH]; simpl; [tauto|].
  destruct (Nat.eqb k k0); simpl; tauto.
Qed.

Lemma Map_delete_NoDup l k :
  NoDup (Map_keys l) -> NoDup (Map_keys (Map_delete k l)).
Proof.
  unfold Map_keys.
  induction l as [|[k0 v0] t IH]; simpl; intros Hnd; [constructor|].
  inversion Hnd as [|? ? Hnotin Hnd']; subst.
  destruct (Nat.eqb k k0); simpl; [assumption|].
  constructor; [|auto].
  intros Hin. apply Hnotin. now apply (Map_keys_delete_incl t k).
Qed.

(** With unique keys, [delete] leaves no entry under the key. *)
Lemma Map_has_delete l k :
  NoDup (Map_keys l) -> Map_has k (Map_delete k l) = false.
Proof.
  intros Hnd. apply Map_has_false. revert Hnd. unfold Map_keys.
  induction l as [|[k0 v0] t IH]; simpl; intros Hnd; [tauto|].
  inversion Hnd as [|? ? Hnotin Hnd']; subst.
  destruct (Nat.eqb_spec k k0) as [->|Hne]; simpl.
  - exact Hnotin.
  - intros [Heq|Hin]; [congruence | now apply IH].
Qed.

Lemma Map_delete_In l k kv : In kv (Map_delete k l) -> In kv l.
Proof.
  induction l as [|[k0 v0] t IH]; simpl; [tauto|].
  destruct (Nat.eqb k k0); simpl; tauto.
Qed.

Lemma Map_has_delete_other l k k' :
  k' <> k -> Map_has k' (Map_delete k l) = Map_has k' l.
Proof.
  intros Hne. unfold Map_has. now rewrite Map_get_delete_other.
Qed.

Lemma Map_set_In l k v kv : In kv (Map_set k v l) -> kv = (k, v) \/ In kv l.
Proof.
  induction l as [|[k0 v0] t IH]; simpl.
  - intros [Heq|[]]. now left.
  - destruct (Nat.eqb k k0); simpl.
    + intros [Heq|Hin]; [now left | now right; right].
    + intros [Heq|Hin]; [now right; left|].
      destruct (IH Hin); [now left | now right; right].
Qed.

Lemma Map_mutate_In l k (f : V -> V) kv :
  In kv (Map_mutate k f l) ->
  In kv l \/ exists v0, In (fst kv, v0) l /\ snd kv = f v0.
Proof.
  induction l as [|[k0 v0] t IH]; simpl; [tauto|].
  destruct (Nat.eqb k k0); simpl.
  - intros [Heq|Hin]; [|now left; right].
    right. exists v0. subst kv. simpl. auto.
  - intros [Heq|Hin]; [now left; left|].
    destruct (IH Hin) as [Hold|[v1 [Hin1 Heq1]]]; [now left; right|].
    right. exists v1. auto.
Qed.

End MapFacts.

Lemma nodupb_NoDup (l : list MeshRef) : nodupb l = true <-> NoDup l.
Proof.
  induction l as [|k t IH]; simpl.
  - split; [constructor | reflexivity].
  - rewrite andb_true_iff, negb_true_iff, IH. split.
    + intros [Hex Hnd]. constructor; [|assumption].
      intros Hin. assert (existsb (Nat.eqb k) t = true) as Habs; [|congruence].
      apply existsb_exists. exists k. split; [assumption | apply Nat.eqb_refl].
    + intros Hnd. inversion Hnd as [|? ? Hnotin Hnd']; subst. split; [|assumption].
      destruct (existsb (Nat.eqb k) t) eqn:Hex; [|reflexivity].
      apply existsb_exists in Hex as [k' [Hin Heq]].
      apply Nat.eqb_eq in Heq. subst. contradiction.
Qed.

(* ===================================================================== *)
(** ** Selecting the closest hit *)
(* ===================================================================== *)

Section Closest.
Context {N : JSNumber} {T : Three N} {B : ThreeMeshBVH T}.

Lemma forEach_closer (f : BVHMesh -> option Intersection) l (acc : Closest) :
  Map_forEach (fun a e => closer a (f e)) l acc
  = fold_left closer (map (fun kv => f (snd kv)) l) acc.
Proof.
  unfold Map_forEach. revert acc.
  induction l as [|kv t IH]; simpl; intros acc; [reflexivity | apply IH].
Qed.

Lemma In_hits_of (f : BVHMesh -> option Intersection) l h :
  In h (hits_of f l) <-> In (Some h) (map (fun kv => f (snd kv)) l).
Proof.
  unfold hits_of.
  induction l as [|kv t IH]; simpl; [tauto|].
  rewrite in_app_iff, IH.
  destruct (f (snd kv)) as [h0|]; simpl.
  - split.
    + intros [[Heq|[]]|Hin]; [left; congruence | right; assumption].
    + intros [Heq|Hin]; [left; left; congruence | right; assumption].
  - split.
    + intros [[]|Hin]; right; assumption.
    + intros [Heq|Hin]; [discriminate | right; assumption].
Qed.

Lemma In_hits_of_entry (f : BVHMesh -> option Intersection) l h :
  In h (hits_of f l) <-> exists kv, In kv l /\ f (snd kv) = Some h.
Proof.
  rewrite In_hits_of, in_map_iff. split; intros [kv [H1 H2]]; exists kv; auto.
Qed.

Context {O : JSNumberOrder N}.

Lemma num_lt_asym (a b : number) : num_lt a b = true -> num_lt b a = false.
Proof.
  intros Hab. destruct (num_lt b a) eqn:Hba; [|reflexivity].
  rewrite <- (num_lt_irrefl a). symmetry. now apply num_lt_trans with b.
Qed.

Lemma not_lt_below (a b c : number) :
  num_lt a c = false -> num_lt b c = true -> num_lt a b = false.
Proof.
  intros Hac Hbc. destruct (num_lt a b) eqn:Hab; [|reflexivity].
  rewrite <- Hac. symmetry. now apply num_lt_trans with b.
Qed.

(** The loop of a cast, over the per-mesh hits in the order of the map:
    either nothing is nearer than the bound it started with and the
    closure's variables are as they were, or they hold a hit that is
    nearer than that bound and than which no hit is nearer. *)
Lemma fold_closer_spec (cs : list (option Intersection)) (acc : Closest) :
  (fold_left closer cs acc = acc /\
   forall h, In (Some h) cs -> num_lt (distance h) (snd acc) = false)
  \/
  (exists h, fold_left closer cs acc = (Some h, distance h) /\
             In (Some h) cs /\
             num_lt (distance h) (snd acc) = true /\
             forall h', In (Some h') cs -> num_lt (distance h') (distance h) = false).
Proof.
  revert acc.
  induction cs as [|c cs IH]; intros acc; simpl.
  - left. split; [reflexivity | tauto].
  - destruct c as [h0|]; simpl.
    + destruct (num_lt (distance h0) (snd acc)) eqn:Hlt.
      * right.
        destruct (IH (Some h0, distance h0)) as [[Heq Hall]|[h [Heq [Hin [Hnear Hall]]]]];
          simpl in *.
        -- exists h0. repeat split; auto.
           intros h' [Hh'|Hh'].
           ++ injection Hh' as ->. apply num_lt_irrefl.
           ++ auto.
        -- exists h. repeat split; auto.
           ++ now apply num_lt_trans with (distance h0).
           ++ intros h' [Hh'|Hh'].
              ** injection Hh' as ->. now apply num_lt_asym.
              ** auto.
      * destruct (IH acc) as [[Heq Hall]|[h [Heq [Hin [Hnear Hall]]]]].
        -- left. split; [assumption|].
           intros h' [Hh'|Hh']; [injection Hh' as ->; assumption | auto].
        -- right. exists h. repeat split; auto.
           intros h' [Hh'|Hh']; [|auto].
           injection Hh' as ->. now apply not_lt_below with (snd acc).
    + destruct (IH acc) as [[Heq Hall]|[h [Heq [Hin [Hnear Hall]]]]].
      * left. split; [assumption|].
        intros h' [Hh'|Hh']; [discriminate | auto].
      * right. exists h. repeat split; auto.
        intros h' [Hh'|Hh']; [discriminate | auto].
Qed.

(** A cast that starts with no hit and the bound [range]: a hit it
    answers with is a closest one within the range, and it answers with
    none exactly when no per-mesh hit is within the range. *)
Lemma cast_spec (f : BVHMesh -> option Intersection) l (range : number) :
  let r := fst (Map_forEach (fun a e => closer a (f e)) l (None, range)) in
  (forall h, r = Some h -> closest_within range (hits_of f l) h) /\
  (r = None <-> none_within range (hits_of f l)).
Proof.
  cbv zeta. rewrite forEach_closer.
  destruct (fold_closer_spec (map (fun kv => f (snd kv)) l) (None, range))
    as [[Heq Hall]|[h [Heq [Hin [Hnear Hall]]]]]; rewrite Heq; simpl in *.
  - split; [discriminate|]. split; [|reflexivity].
    intros _ h' Hin'. apply Hall. now apply In_hits_of.
  - split.
    + intros h0 [= <-]. split; [now apply In_hits_of|]. split; [assumption|].
      intros h' Hin'. apply Hall. now apply In_hits_of.
    + split; [discriminate|]. intros Hnone.
      rewrite (Hnone h) in Hnear; [discriminate | now apply In_hits_of].
Qed.

End Closest.

(* ===================================================================== *)
(** ** The casts *)
(* ===================================================================== *)

Section Casts.
Context {N : JSNumber} {T : Three N} {B : ThreeMeshBVH T}.

Lemma Map_forEach_ext {V S : Type} (f g : S -> V -> S) l (s : S) :
  (forall a e, f a e = g a e) -> Map_forEach f l s = Map_forEach g l s.
Proof.
  intros Hfg. unfold Map_forEach. revert s.
  induction l as [|kv t IH]; simpl; intros s; [reflexivity|].
  rewrite Hfg. apply IH.
Qed.

(** One turn of the loop of [raycast] offers the per-mesh hit of the
    entry to the closure's variables. *)
Lemma raycast_visit_closer (w : World) (ray : Ray) (acc : Closest) (e : BVHMesh) :
  raycast_visit w ray acc e = closer acc (raycast_mesh_hit w ray e).
Proof.
  unfold raycast_visit, raycast_mesh_hit, closer, world_hit.
  destruct (raycastFirst (bvh e) (Ray_applyMatrix4 ray (invMatrixWorld e)) FrontSide);
    reflexivity.
Qed.

Lemma sphereCast_visit_closer (w : World) (sphere : Sphere) (direction : Vector3)
    (range : number) (acc : Closest) (e : BVHMesh) :
  sphereCast_visit w sphere direction range acc e
  = closer acc (sphereCast_mesh_hit w sphere direction range e).
Proof.
  unfold sphereCast_visit, sphereCast_mesh_hit, closer, world_hit,
    swept_box, local_center, local_direction; simpl.
  destruct (intersectsBox _ _ _); [|reflexivity].
  destruct (raycastFirst _ _ _); reflexivity.
Qed.

(** What the per-mesh hits of a ray are. *)
Lemma In_raycast_hits (w : World) (ray : Ray) (h : Intersection) :
  In h (raycast_hits w ray) <->
  exists k bvhMesh hit,
    In (k, bvhMesh) (bvhMeshes w) /\
    raycastFirst (bvh bvhMesh) (Ray_applyMatrix4 ray (invMatrixWorld bvhMesh)) FrontSide
    = Some hit /\
    h = world_hit w (origin ray) bvhMesh hit.
Proof.
  unfold raycast_hits. rewrite In_hits_of_entry. unfold raycast_mesh_hit. split.
  - intros [[k e] [Hin Hhit]]. simpl in Hhit.
    destruct (raycastFirst _ _ _) as [hit|] eqn:Hraw; [|discriminate].
    injection Hhit as <-. exists k, e, hit. auto.
  - intros [k [e [hit [Hin [Hraw ->]]]]]. exists (k, e). simpl.
    now rewrite Hraw.
Qed.

Lemma In_sphereCast_hits (w : World) (sphere : Sphere) (direction : Vector3)
    (range : number) (h : Intersection) :
  In h (sphereCast_hits w sphere direction range) <->
  exists k bvhMesh hit,
    In (k, bvhMesh) (bvhMeshes w) /\
    intersectsBox (bvh bvhMesh) (swept_box sphere direction range bvhMesh)
                  Matrix4_identity = true /\
    raycastFirst
      (bvh bvhMesh)
      (mkRay (Vector3_applyMatrix4 (center sphere) (invMatrixWorld bvhMesh))
             (Vector3_multiplyScalar
                (Vector3_normalize
                   (Vector3_applyMatrix4 direction (invMatrixWorld bvhMesh)))
                range))
      FrontSide = Some hit /\
    h = world_hit w (center sphere) bvhMesh hit.
Proof.
  unfold sphereCast_hits. rewrite In_hits_of_entry.
  unfold sphereCast_mesh_hit, local_center, local_direction. split.
  - intros [[k e] [Hin Hhit]]. simpl in Hhit.
    destruct (intersectsBox _ _ _) eqn:Hbox; [|discriminate].
    destruct (raycastFirst _ _ _) as [hit|] eqn:Hraw; [|discriminate].
    injection Hhit as <-. exists k, e, hit. auto.
  - intros [k [e [hit [Hin [Hbox [Hraw ->]]]]]]. exists (k, e). simpl.
    now rewrite Hbox, Hraw.
Qed.

Lemma raycast_as_cast (w : World) (ray : Ray) (maxDistance : option number) :
  raycast w ray maxDistance
  = fst (Map_forEach (fun a e => closer a (raycast_mesh_hit w ray e)) (bvhMeshes w)
                     (None, default_arg maxDistance Infinity)).
Proof.
  unfold raycast. f_equal. apply Map_forEach_ext. apply raycast_visit_closer.
Qed.

Lemma sphereCast_as_cast (w : World) (sphere : Sphere) (direction : Vector3)
    (maxDistance : option number) :
  sphereCast w sphere direction maxDistance
  = fst (Map_forEach
           (fun a e =>
              closer a (sphereCast_mesh_hit w sphere direction
                                            (default_arg maxDistance Infinity) e))
           (bvhMeshes w) (None, default_arg maxDistance Infinity)).
Proof.
  unfold sphereCast. f_equal. apply Map_forEach_ext. apply sphereCast_visit_closer.
Qed.

Context {O : JSNumberOrder N}.

(** The loop of [raycast] keeps a closest per-mesh hit within range. *)
Lemma raycast_closest (w : World) (ray : Ray) (maxDistance : option number) :
  let range := default_arg maxDistance Infinity in
  (forall h, raycast w ray maxDistance = Some h ->
             closest_within range (raycast_hits w ray) h) /\
  (raycast w ray maxDistance = None <-> none_within range (raycast_hits w ray)).
Proof.
  cbv zeta. rewrite raycast_as_cast. apply cast_spec.
Qed.

(** C1.  The per-mesh hits of a ray are, for every registered mesh that
    the library reports a hit for, that hit carried to world space.
    [raycast] answers with a closest one of them: a per-mesh hit nearer
    to the ray's origin than [maxDistance] such that no per-mesh hit is
    nearer than it.  It answers [null] exactly when no per-mesh hit is
    nearer than [maxDistance] (the comparison is strict). *)
Theorem raycast_returns_closest_hit
    (w : World) (ray : Ray) (maxDistance : option number) :
  let range := default_arg maxDistance Infinity in
  (forall h,
      In h (raycast_hits w ray) <->
      exists k bvhMesh hit,
        In (k, bvhMesh) (bvhMeshes w) /\
        raycastFirst (bvh bvhMesh) (Ray_applyMatrix4 ray (invMatrixWorld bvhMesh))
                     FrontSide = Some hit /\
        h = world_hit w (origin ray) bvhMesh hit) /\
  (forall h, raycast w ray maxDistance = Some h ->
             closest_within range (raycast_hits w ray) h) /\
  (raycast w ray maxDistance = None <-> none_within range (raycast_hits w ray)).
Proof.
  intros range. split.
  - intros h. apply In_raycast_hits.
  - exact (raycast_closest w ray maxDistance).
Qed.

(** What [sphereCast] computes.  Per registered mesh its candidate is the
    library's first hit of the ray from the sphere's centre, taken to the
    mesh's local space by the cached inverse, along the vector that the
    code obtains by putting the direction through [applyMatrix4] with the
    same matrix (as if it were a point), normalising and scaling by the
    range; the hit counts when the swept box meets the mesh, and is
    measured in world space from the sphere's centre.  Among these
    candidates [sphereCast] answers with a closest one within
    [maxDistance], and with [null] exactly when none is nearer than
    [maxDistance]. *)
Theorem sphereCast_returns_closest_hit
    (w : World) (sphere : Sphere) (direction : Vector3) (maxDistance : option number) :
  let range := default_arg maxDistance Infinity in
  (forall h,
      In h (sphereCast_hits w sphere direction range) <->
      exists k bvhMesh hit,
        In (k, bvhMesh) (bvhMeshes w) /\
        intersectsBox (bvh bvhMesh) (swept_box sphere direction range bvhMesh)
                      Matrix4_identity = true /\
        raycastFirst
          (bvh bvhMesh)
          (mkRay (Vector3_applyMatrix4 (center sphere) (invMatrixWorld bvhMesh))
                 (Vector3_multiplyScalar
                    (Vector3_normalize
                       (Vector3_applyMatrix4 direction (invMatrixWorld bvhMesh)))
                    range))
          FrontSide = Some hit /\
        distance h
        = Vector3_distanceTo
            (center sphere)
            (Vector3_applyMatrix4 (hit_point hit) (matrixWorld (heap w (mesh bvhMesh)))) /\
        h = world_hit w (center sphere) bvhMesh hit) /\
  (forall h, sphereCast w sphere direction maxDistance = Some h ->
             closest_within range (sphereCast_hits w sphere direction range) h) /\
  (sphereCast w sphere direction maxDistance = None <->
   none_within range (sphereCast_hits w sphere direction range)).
Proof.
  intros range. split.
  - intros h. rewrite In_sphereCast_hits. split.
    + intros [k [e [hit [Hin [Hbox [Hraw ->]]]]]]. exists k, e, hit.
      repeat split; auto.
    + intros [k [e [hit [Hin [Hbox [Hraw [_ ->]]]]]]]. exists k, e, hit. auto.
  - subst range. rewrite sphereCast_as_cast. apply cast_spec.
Qed.

(** C4.  [getGroundHeight(x, z, maxDistance)] answers with the world Y of
    the hit that [raycast] finds for the ray from [(x, maxDistance, z)]
    straight down: a closest one of the per-mesh hits of that ray within
    twice [maxDistance].  It answers [null] exactly when no per-mesh hit
    of that ray is within that range. *)
Theorem getGroundHeight_nearest_downward_hit
    (w : World) (px pz : number) (maxDistance : option number) :
  let d := default_arg maxDistance (literal 100) in
  let ray := mkRay (mkVector3 px d pz)
                   (mkVector3 (literal 0) (literal (-1)) (literal 0)) in
  let range := num_mul d (literal 2) in
  (forall height,
      getGroundHeight w px pz maxDistance = Some height ->
      exists h, raycast w ray (Some range) = Some h /\
                closest_within range (raycast_hits w ray) h /\
                height = y (point h)) /\
  (getGroundHeight w px pz maxDistance = None <->
   none_within range (raycast_hits w ray)).
Proof.
  intros d ray range. unfold getGroundHeight, ground_probe.
  fold d. fold ray. fold range.
  destruct (raycast_closest w ray (Some range)) as [Hsome Hnone].
  simpl in Hsome, Hnone.
  destruct (raycast w ray (Some range)) as [h|].
  - split.
    + intros height [= <-]. exists h. auto.
    + split; [discriminate|]. intros Hnothing.
      apply Hnone in Hnothing. discriminate.
  - split; [discriminate|]. split; [|reflexivity].
    intros _. now apply Hnone.
Qed.

End Casts.

Section OnGround.
Context {N : JSNumber} {T : Three N} {B : ThreeMeshBVH T}.

(** C10, as the code has it.  [isOnGround] answers [true] exactly when
    [getGroundHeight] at the point's X and Z answers a height [h] with
    [|position.y - h| < threshold]; it answers [false] whenever
    [getGroundHeight] answers [null]. *)
Theorem isOnGround_iff_near_ground_height
    (w : World) (position : Vector3) (threshold maxDistance : option number) :
  let t := default_arg threshold (literal (1 # 10)) in
  let d := default_arg maxDistance (literal 2) in
  (isOnGround w position threshold maxDistance = true <->
   exists h, getGroundHeight w (x position) (z position) (Some d) = Some h /\
             num_lt (Math_abs (num_sub (y position) h)) t = true) /\
  (getGroundHeight w (x position) (z position) (Some d) = None ->
   isOnGround w position threshold maxDistance = false).
Proof.
  intros t d. unfold isOnGround. fold t. fold d.
  destruct (getGroundHeight w (x position) (z position) (Some d)) as [h|].
  - split.
    + split.
      * intros Hnear. exists h. auto.
      * intros [h' [Heq Hnear]]. injection Heq as <-. exact Hnear.
    + discriminate.
  - split.
    + split; [discriminate | intros [h' [Heq _]]; discriminate].
    + reflexivity.
Qed.

End OnGround.

(* ===================================================================== *)
(** ** buildBVH, case by case *)
(* ===================================================================== *)

Section Build.
Context {N : JSNumber} {T : Three N} {B : ThreeMeshBVH T}.

Lemma store_same (h : MeshRef -> Mesh) (m : MeshRef) (o : Mesh) : store h m o m = o.
Proof. unfold store. now rewrite Nat.eqb_refl. Qed.

Lemma store_other (h : MeshRef -> Mesh) (m k : MeshRef) (o : Mesh) :
  k <> m -> store h m o k = h k.
Proof.
  intros Hne. unfold store. destruct (Nat.eqb_spec k m); [contradiction | reflexivity].
Qed.

(** The four ways through [buildBVH]: no geometry; an entry exists; the
    construction throws; the construction succeeds. *)
Lemma buildBVH_cases (m : MeshRef) (w : World) :
  (geometry (heap w m) = None /\
   buildBVH m w = (Normal None, emit (ConsoleWarn m) w))
  \/
  (exists g e,
      geometry (heap w m) = Some g /\
      Map_get m (bvhMeshes w) = Some e /\
      buildBVH m w = (Normal (Some e), w))
  \/
  (exists g err,
      geometry (heap w m) = Some g /\
      Map_get m (bvhMeshes w) = None /\
      MeshBVH_new (ensured g) build_options = Throw err /\
      buildBVH m w
      = (Normal None,
         emit (ConsoleError err m) (emit (NewMeshBVH (ensured g)) (prepared m g w))))
  \/
  (exists g b,
      geometry (heap w m) = Some g /\
      Map_get m (bvhMeshes w) = None /\
      MeshBVH_new (ensured g) build_options = Normal b /\
      buildBVH m w = (Normal (Some (built_entry m g b w)), built m g b w)).
Proof.
  unfold buildBVH, bind, read_mesh, read_bvhMeshes, Map_has.
  destruct (geometry (heap w m)) as [g|] eqn:Hgeo.
  - destruct (Map_get m (bvhMeshes w)) as [e|] eqn:Hget.
    + right; left. exists g, e. auto.
    + right; right.
      unfold try_catch, bind, new_MeshBVH, write_mesh, read_mesh, modify_bvhMeshes,
        console_error, ret.
      destruct (geometry_index g) as [i|] eqn:Hidx; simpl.
      * destruct (MeshBVH_new g {| maxDepth := 40; maxLeafTris := 10 |}) as [b|err]
          eqn:Hnew; simpl.
        -- right. exists g, b.
           unfold built_entry, built, prepared, ensured, build_options.
           rewrite Hidx. auto.
        -- left. exists g, err. unfold prepared, ensured, build_options.
           rewrite Hidx. auto.
      * destruct (MeshBVH_new (toNonIndexed g) {| maxDepth := 40; maxLeafTris := 10 |})
          as [b|err] eqn:Hnew; simpl.
        -- right. exists g, b.
           unfold built_entry, built, prepared, ensured, build_options.
           rewrite Hidx. auto.
        -- left. exists g, err. unfold prepared, ensured, build_options.
           rewrite Hidx. auto.
  - left. auto.
Qed.

Lemma prepared_bvhMeshes (m : MeshRef) (g : BufferGeometry) (w : World) :
  bvhMeshes (prepared m g w) = bvhMeshes w.
Proof. unfold prepared. destruct (geometry_index g); reflexivity. Qed.

Lemma prepared_trace (m : MeshRef) (g : BufferGeometry) (w : World) :
  trace (prepared m g w) = trace w.
Proof. unfold prepared. destruct (geometry_index g); reflexivity. Qed.

Lemma prepared_heap_other (m k : MeshRef) (g : BufferGeometry) (w : World) :
  k <> m -> heap (prepared m g w) k = heap w k.
Proof.
  intros Hne. unfold prepared. destruct (geometry_index g); simpl;
    [reflexivity | now apply store_other].
Qed.

Lemma prepared_heap_same (m : MeshRef) (g : BufferGeometry) (w : World) :
  geometry (heap w m) = Some g ->
  heap (prepared m g w) m = with_geometry (heap w m) (Some (ensured g)).
Proof.
  intros Hgeo. unfold prepared, ensured.
  destruct (geometry_index g); simpl.
  - unfold with_geometry. rewrite <- Hgeo. now destruct (heap w m).
  - apply store_same.
Qed.

Lemma built_bvhMeshes (m : MeshRef) (g : BufferGeometry) (b : MeshBVH) (w : World) :
  bvhMeshes (built m g b w)
  = Map_mutate m (set_invMatrixWorld
                    (Matrix4_invert (matrixWorld (heap (built m g b w) m))))
               (Map_set m {| mesh := m; bvh := b; invMatrixWorld := Matrix4_identity |}
                        (bvhMeshes w)).
Proof. unfold built. simpl. now rewrite prepared_bvhMeshes. Qed.

Lemma built_trace (m : MeshRef) (g : BufferGeometry) (b : MeshBVH) (w : World) :
  trace (built m g b w) = NewMeshBVH (ensured g) :: trace w.
Proof. unfold built. simpl. now rewrite prepared_trace. Qed.

Lemma built_heap_other (m k : MeshRef) (g : BufferGeometry) (b : MeshBVH) (w : World) :
  k <> m -> heap (built m g b w) k = heap w k.
Proof.
  intros Hne. unfold built. simpl. rewrite store_other by assumption.
  now apply prepared_heap_other.
Qed.

Lemma built_heap_same (m : MeshRef) (g : BufferGeometry) (b : MeshBVH) (w : World) :
  geometry (heap w m) = Some g ->
  heap (built m g b w) m
  = updateMatrixWorld (with_geometry (heap w m) (Some (ensured g))).
Proof.
  intros Hgeo. unfold built. simpl. rewrite store_same.
  now rewrite prepared_heap_same.
Qed.

Lemma built_get_same (m : MeshRef) (g : BufferGeometry) (b : MeshBVH) (w : World) :
  Map_get m (bvhMeshes (built m g b w)) = Some (built_entry m g b w).
Proof.
  rewrite built_bvhMeshes, Map_get_mutate, Map_get_set, Nat.eqb_refl. reflexivity.
Qed.

Lemma built_get_other (m k : MeshRef) (g : BufferGeometry) (b : MeshBVH) (w : World) :
  k <> m -> Map_get k (bvhMeshes (built m g b w)) = Map_get k (bvhMeshes w).
Proof.
  intros Hne. rewrite built_bvhMeshes, Map_get_mutate, Map_get_set.
  destruct (Nat.eqb_spec k m); [contradiction | reflexivity].
Qed.

Lemma built_keys (m : MeshRef) (g : BufferGeometry) (b : MeshBVH) (w : World) :
  Map_get m (bvhMeshes w) = None ->
  Map_keys (bvhMeshes (built m g b w)) = Map_keys (bvhMeshes w) ++ [m].
Proof.
  intros Hnone. rewrite built_bvhMeshes, Map_keys_mutate.
  apply Map_keys_set_new. now apply Map_get_None.
Qed.

End Build.

(* ===================================================================== *)
(** ** buildBVH: what it returns, what it writes *)
(* ===================================================================== *)

Section BuildProperties.
Context {N : JSNumber} {T : Three N} {B : ThreeMeshBVH T}.

(** C2, as the code has it.  For a mesh that has an entry and still has a
    geometry, [buildBVH] returns that entry and leaves the world as it
    is: nothing is constructed, logged or written.  After a call that
    returned an entry, a second call returns the same entry and changes
    nothing. *)
Theorem buildBVH_returns_cached_entry (m : MeshRef) (w : World) :
  (forall e,
      Map_get m (bvhMeshes w) = Some e ->
      geometry (heap w m) <> None ->
      buildBVH m w = (Normal (Some e), w)) /\
  (forall e w',
      buildBVH m w = (Normal (Some e), w') ->
      buildBVH m w' = (Normal (Some e), w')).
Proof.
  assert (forall (v : World) e,
             Map_get m (bvhMeshes v) = Some e ->
             geometry (heap v m) <> None ->
             buildBVH m v = (Normal (Some e), v)) as Hcached.
  { intros v e Hget Hgeo.
    destruct (buildBVH_cases m v)
      as [[Hnone _]|[[g [e' [_ [Hget' Heq]]]]|[[g [err [_ [Hget' _]]]]|[g [b [_ [Hget' _]]]]]]];
      try congruence. }
  split; [apply Hcached|].
  intros e w' Hbuild.
  destruct (buildBVH_cases m w)
    as [[_ Heq]|[[g [e' [Hgeo [Hget Heq]]]]|[[g [err [_ [_ [_ Heq]]]]]
                                            |[g [b [Hgeo [Hget [_ Heq]]]]]]]];
    rewrite Heq in Hbuild; try discriminate.
  - injection Hbuild as <- <-. apply Hcached; congruence.
  - injection Hbuild as <- <-. apply Hcached.
    + apply built_get_same.
    + rewrite (built_heap_same m g b w Hgeo). discriminate.
Qed.

(** C5.  [buildBVH] never throws.  It returns [null] exactly when the
    mesh has no geometry, or when the mesh has no entry yet and the
    construction of the acceleration structure throws; the first is
    logged with [console.warn], the second with [console.error].  In
    every other case it returns the entry the map then holds for the
    mesh. *)
Theorem buildBVH_null_exactly_on_failure (m : MeshRef) (w : World) :
  exists r w',
    buildBVH m w = (Normal r, w') /\
    (r = None <->
     geometry (heap w m) = None \/
     exists g err,
       geometry (heap w m) = Some g /\
       Map_has m (bvhMeshes w) = false /\
       MeshBVH_new (ensured g) build_options = Throw err) /\
    (geometry (heap w m) = None ->
     r = None /\ trace w' = ConsoleWarn m :: trace w) /\
    (forall g err,
        geometry (heap w m) = Some g ->
        Map_has m (bvhMeshes w) = false ->
        MeshBVH_new (ensured g) build_options = Throw err ->
        r = None /\
        trace w' = ConsoleError err m :: NewMeshBVH (ensured g) :: trace w) /\
    (forall e, r = Some e -> Map_get m (bvhMeshes w') = Some e).
Proof.
  destruct (buildBVH_cases m w)
    as [[Hgeo Heq]|[[g [e [Hgeo [Hget Heq]]]]|[[g [err [Hgeo [Hget [Hnew Heq]]]]]
                                              |[g [b [Hgeo [Hget [Hnew Heq]]]]]]]];
    rewrite Heq; eexists; eexists; (split; [reflexivity|]).
  - repeat split; auto; try congruence.
  - assert (Map_has m (bvhMeshes w) = true) as Hhas
        by (apply Map_get_has; eauto).
    split; [|split; [|split]].
    + split; [discriminate|].
      intros [Hnone|[g' [err [_ [Hfalse _]]]]]; congruence.
    + congruence.
    + intros g' err _ Hfalse. congruence.
    + intros e' [= <-]. exact Hget.
  - apply Map_get_None in Hget.
    split; [|split; [|split]].
    + split; [|reflexivity]. intros _. right. exists g, err. auto.
    + congruence.
    + intros g' err' Hgeo' _ Hnew'.
      assert (g' = g) as -> by congruence.
      assert (err' = err) as -> by congruence.
      split; [reflexivity|]. simpl. now rewrite prepared_trace.
    + discriminate.
  - split; [|split; [|split]].
    + split; [discriminate|].
      intros [Hnone|[g' [err [Hgeo' [_ Hnew']]]]]; [congruence|].
      assert (g' = g) as -> by congruence. congruence.
    + congruence.
    + intros g' err Hgeo' _ Hnew'.
      assert (g' = g) as -> by congruence. congruence.
    + intros e [= <-]. apply built_get_same.
Qed.


End BuildProperties.

(* ===================================================================== *)
(** ** What the queries read *)
(* ===================================================================== *)

Section QueriesRead.
Context {N : JSNumber} {T : Three N} {B : ThreeMeshBVH T}.

Lemma Map_forEach_ext_in {V S : Type} (f g : S -> V -> S) l (s : S) :
  (forall a kv, In kv l -> f a (snd kv) = g a (snd kv)) ->
  Map_forEach f l s = Map_forEach g l s.
Proof.
  unfold Map_forEach. revert s.
  induction l as [|kv t IH]; simpl; intros s Hfg; [reflexivity|].
  rewrite Hfg by now left. apply IH. intros a kv' Hin. apply Hfg. now right.
Qed.

(** The queries read the map and, of the scene, only the meshes that the
    entries name. *)
Lemma same_answers_ext (w1 w2 : World) :
  bvhMeshes w1 = bvhMeshes w2 ->
  (forall k e, In (k, e) (bvhMeshes w1) -> heap w1 (mesh e) = heap w2 (mesh e)) ->
  same_answers w1 w2.
Proof.
  intros Hmap Hheap.
  assert (forall ray d, raycast w1 ray d = raycast w2 ray d) as Hray.
  { intros ray d. unfold raycast. rewrite <- Hmap. f_equal.
    apply Map_forEach_ext_in. intros a [k e] Hin. simpl.
    unfold raycast_visit. now rewrite (Hheap k e Hin). }
  assert (forall px pz d, getGroundHeight w1 px pz d = getGroundHeight w2 px pz d)
    as Hground.
  { intros px pz d. unfold getGroundHeight. now rewrite Hray. }
  repeat split.
  - exact Hray.
  - intros sphere direction d. unfold sphereCast. rewrite <- Hmap. f_equal.
    apply Map_forEach_ext_in. intros a [k e] Hin. simpl.
    unfold sphereCast_visit. now rewrite (Hheap k e Hin).
  - exact Hground.
  - intros position threshold d. unfold isOnGround. now rewrite Hground.
Qed.

(** Whatever the order of numbers, the hit a cast answers with is one of
    the per-mesh hits. *)
Lemma fold_closer_In (cs : list (option Intersection)) (acc : Closest) (h : Intersection) :
  fst (fold_left closer cs acc) = Some h -> fst acc = Some h \/ In (Some h) cs.
Proof.
  revert acc.
  induction cs as [|c cs IH]; simpl; intros acc Hres; [now left|].
  destruct (IH _ Hres) as [Hacc|Hin]; [|now right; right].
  destruct c as [h0|]; simpl in Hacc; [|now left].
  destruct (num_lt (distance h0) (snd acc)); [|now left].
  right; left. exact Hacc.
Qed.

Lemma raycast_In_hits (w : World) (ray : Ray) (d : option number) (h : Intersection) :
  raycast w ray d = Some h -> In h (raycast_hits w ray).
Proof.
  rewrite raycast_as_cast, forEach_closer. intros Hres.
  apply fold_closer_In in Hres as [Habs|Hin]; [discriminate|].
  now apply In_hits_of.
Qed.

Lemma sphereCast_In_hits (w : World) (sphere : Sphere) (direction : Vector3)
    (d : option number) (h : Intersection) :
  sphereCast w sphere direction d = Some h ->
  In h (sphereCast_hits w sphere direction (default_arg d Infinity)).
Proof.
  rewrite sphereCast_as_cast, forEach_closer. intros Hres.
  apply fold_closer_In in Hres as [Habs|Hin]; [discriminate|].
  now apply In_hits_of.
Qed.

Lemma well_formed_spec (w : World) :
  well_formed w = true <->
  NoDup (Map_keys (bvhMeshes w)) /\
  forall k e, In (k, e) (bvhMeshes w) -> mesh e = k.
Proof.
  unfold well_formed. rewrite andb_true_iff, nodupb_NoDup, forallb_forall.
  split; intros [Hnd Hall]; (split; [assumption|]).
  - intros k e Hin. symmetry. apply Nat.eqb_eq. exact (Hall (k, e) Hin).
  - intros [k e] Hin. simpl. apply Nat.eqb_eq. symmetry. now apply Hall.
Qed.

Lemma unregistered_entries (w : World) (m : MeshRef) :
  well_formed w = true -> Map_has m (bvhMeshes w) = false ->
  forall k e, In (k, e) (bvhMeshes w) -> mesh e <> m.
Proof.
  intros Hwf Hhas k e Hin.
  apply well_formed_spec in Hwf as [_ Hnames].
  rewrite (Hnames k e Hin). intros ->.
  apply Map_has_false in Hhas. apply Hhas.
  unfold Map_keys. now apply (in_map fst) in Hin.
Qed.

(** The queries ignore a mesh that has no entry. *)
Lemma unregistered_ignored (w : World) (m : MeshRef) :
  well_formed w = true -> Map_has m (bvhMeshes w) = false -> ignores w m.
Proof.
  intros Hwf Hhas.
  pose proof (unregistered_entries w m Hwf Hhas) as Hother.
  assert (forall ray h, In h (raycast_hits w ray) -> object h <> m) as Hray.
  { intros ray h Hin. apply In_raycast_hits in Hin as [k [e [hit [Hin [_ ->]]]]].
    simpl. now apply (Hother k). }
  assert (forall sphere direction d h,
             In h (sphereCast_hits w sphere direction d) -> object h <> m) as Hsphere.
  { intros sphere direction d h Hin.
    apply In_sphereCast_hits in Hin as [k [e [hit [Hin [_ [_ ->]]]]]].
    simpl. now apply (Hother k). }
  split; [exact Hray|]. split; [exact Hsphere|].
  split; [intros ray d h Hres; apply (Hray ray); now apply raycast_In_hits with d|].
  split.
  - intros sphere direction d h Hres.
    apply (Hsphere sphere direction (default_arg d Infinity)).
    now apply sphereCast_In_hits.
  - intros o. apply (same_answers_ext (caller_writes m o w) w); [reflexivity|].
    intros k e Hin. simpl. apply store_other. now apply (Hother k).
Qed.

(** C8.  When [buildBVH(m)] returns [null] for a mesh that has no entry,
    the map is what it was, [m] still has no entry, and every query
    answers as it did before the call. *)
Theorem failed_buildBVH_changes_no_answer (m : MeshRef) (w w' : World) :
  well_formed w = true ->
  Map_has m (bvhMeshes w) = false ->
  buildBVH m w = (Normal None, w') ->
  bvhMeshes w' = bvhMeshes w /\
  Map_has m (bvhMeshes w') = false /\
  same_answers w' w.
Proof.
  intros Hwf Hhas Hbuild.
  pose proof (unregistered_entries w m Hwf Hhas) as Hother.
  destruct (buildBVH_cases m w)
    as [[Hgeo Heq]|[[g [e [Hgeo [Hget Heq]]]]|[[g [err [Hgeo [Hget [Hnew Heq]]]]]
                                              |[g [b [Hgeo [Hget [Hnew Heq]]]]]]]];
    rewrite Heq in Hbuild; try discriminate; injection Hbuild as <-.
  - simpl. split; [reflexivity|]. split; [assumption|].
    now apply same_answers_ext.
  - assert (bvhMeshes (emit (ConsoleError err m)
                            (emit (NewMeshBVH (ensured g)) (prepared m g w)))
            = bvhMeshes w) as Hmap by (simpl; apply prepared_bvhMeshes).
    rewrite Hmap. split; [reflexivity|]. split; [assumption|].
    apply same_answers_ext; [exact Hmap|].
    intros k e Hin. rewrite Hmap in Hin. simpl.
    apply prepared_heap_other. now apply (Hother k).
Qed.

End QueriesRead.

(* ===================================================================== *)
(** ** The map along a sequence of calls *)
(* ===================================================================== *)

Section Registry.
Context {N : JSNumber} {T : Three N} {B : ThreeMeshBVH T}.

Lemma updateMatrices_loop_keys (h : MeshRef -> Mesh) (l : list (MeshRef * BVHMesh)) :
  Map_keys (snd (updateMatrices_loop h l)) = Map_keys l.
Proof.
  revert h. induction l as [|[k e] t IH]; intros h; simpl; [reflexivity|].
  specialize (IH (store h (mesh e) (updateMatrixWorld (h (mesh e))))).
  destruct (updateMatrices_loop _ t) as [h2 t']. simpl in *. now rewrite IH.
Qed.

Lemma updateMatrices_loop_In (h : MeshRef -> Mesh) (l : list (MeshRef * BVHMesh)) k e :
  In (k, e) (snd (updateMatrices_loop h l)) ->
  exists e0 mat, In (k, e0) l /\ e = set_invMatrixWorld mat e0.
Proof.
  revert h. induction l as [|[k0 e0] t IH]; intros h; simpl; [tauto|].
  specialize (IH (store h (mesh e0) (updateMatrixWorld (h (mesh e0))))).
  destruct (updateMatrices_loop _ t) as [h2 t']. simpl in *.
  intros [Heq|Hin].
  - injection Heq as <- <-. eauto.
  - destruct (IH Hin) as [e1 [mat [Hin1 Heq1]]]. eauto.
Qed.

Lemma updateMatrices_keys (w : World) :
  Map_keys (bvhMeshes (updateMatrices w)) = Map_keys (bvhMeshes w).
Proof.
  unfold updateMatrices.
  pose proof (updateMatrices_loop_keys (heap w) (bvhMeshes w)) as Hkeys.
  destruct (updateMatrices_loop (heap w) (bvhMeshes w)) as [h l]. exact Hkeys.
Qed.

Lemma updateMatrices_In (w : World) k e :
  In (k, e) (bvhMeshes (updateMatrices w)) ->
  exists e0 mat, In (k, e0) (bvhMeshes w) /\ e = set_invMatrixWorld mat e0.
Proof.
  unfold updateMatrices.
  pose proof (updateMatrices_loop_In (heap w) (bvhMeshes w) k e) as Hin.
  destruct (updateMatrices_loop (heap w) (bvhMeshes w)) as [h l]. exact Hin.
Qed.

(** What [buildBVH(m)] does to the map. *)
Lemma buildBVH_registry (m : MeshRef) (w : World) :
  let r := fst (buildBVH m w) in
  let w' := snd (buildBVH m w) in
  (forall k, k <> m -> Map_has k (bvhMeshes w') = Map_has k (bvhMeshes w)) /\
  ((exists e, r = Normal (Some e)) -> Map_has m (bvhMeshes w') = true) /\
  (Map_has m (bvhMeshes w') = true ->
   Map_has m (bvhMeshes w) = true \/ exists e, r = Normal (Some e)) /\
  (Map_has m (bvhMeshes w) = true -> Map_has m (bvhMeshes w') = true) /\
  (NoDup (Map_keys (bvhMeshes w)) -> NoDup (Map_keys (bvhMeshes w'))) /\
  ((forall k e, In (k, e) (bvhMeshes w) -> mesh e = k) ->
   forall k e, In (k, e) (bvhMeshes w') -> mesh e = k).
Proof.
  intros r w'. subst r w'.
  destruct (buildBVH_cases m w)
    as [[Hgeo Heq]|[[g [e [Hgeo [Hget Heq]]]]|[[g [err [Hgeo [Hget [Hnew Heq]]]]]
                                              |[g [b [Hgeo [Hget [Hnew Heq]]]]]]]];
    rewrite Heq; cbn [fst snd].
  - simpl. repeat split; auto. intros [e He]. discriminate.
  - assert (Map_has m (bvhMeshes w) = true) as Hhas by (apply Map_get_has; eauto).
    repeat split; auto.
  - assert (bvhMeshes (emit (ConsoleError err m)
                            (emit (NewMeshBVH (ensured g)) (prepared m g w)))
            = bvhMeshes w) as Hmap by (simpl; apply prepared_bvhMeshes).
    rewrite Hmap. repeat split; auto. intros [e He]. discriminate.
  - assert (Map_has m (bvhMeshes (built m g b w)) = true) as Hhas.
    { apply Map_get_has. exists (built_entry m g b w). apply built_get_same. }
    split; [|split; [|split; [|split; [|split]]]]; auto.
    + intros k Hne. unfold Map_has. now rewrite built_get_other.
    + intros _. right. eauto.
    + intros Hnd. rewrite built_keys by assumption.
      apply NoDup_app; [assumption | repeat constructor; simpl; tauto |].
      intros k Hin [<-|[]]. apply Map_get_None in Hget.
      apply Map_has_false in Hget. contradiction.
    + intros Hnames k e. rewrite built_bvhMeshes. intros Hin.
      apply Map_mutate_In in Hin as [Hin|[e0 [Hin Heq0]]]; simpl in Hin.
      * apply Map_set_In in Hin as [[= -> ->]|Hin]; [reflexivity | now apply Hnames].
      * simpl in Heq0. subst e. simpl.
        apply Map_set_In in Hin as [[= -> ->]|Hin]; [reflexivity | now apply Hnames].
Qed.

Lemma run_op_well_formed (op : Op) (w : World) :
  well_formed w = true -> well_formed (snd (run_op op w)) = true.
Proof.
  rewrite !well_formed_spec. intros [Hnd Hnames].
  destruct op as [m|m| | | | |m o]; simpl; auto.
  - pose proof (buildBVH_registry m w) as [_ [_ [_ [_ [Hnd' Hnames']]]]].
    destruct (buildBVH m w) as [r w']. simpl in *. auto.
  - split; [now apply Map_delete_NoDup|].
    intros k e Hin. apply Hnames. now apply Map_delete_In in Hin.
  - split; [now rewrite updateMatrices_keys|].
    intros k e Hin. apply updateMatrices_In in Hin as [e0 [mat [Hin ->]]].
    simpl. now apply Hnames.
  - split; [constructor | intros k e []].
Qed.

Lemma Map_has_keys {V W : Type} (l : list (MeshRef * V)) (l' : list (MeshRef * W)) k :
  Map_keys l' = Map_keys l -> Map_has k l' = Map_has k l.
Proof.
  intros Hkeys.
  destruct (Map_has k l) eqn:Hl.
  - apply Map_has_In. rewrite Hkeys. now apply Map_has_In.
  - apply Map_has_false. rewrite Hkeys. now apply Map_has_false.
Qed.

(** An entry for [m] after a call was there before and the call did not
    take it away, or the call was a [buildBVH(m)] that returned an entry. *)
Lemma run_op_has (m : MeshRef) (op : Op) (w : World) :
  NoDup (Map_keys (bvhMeshes w)) ->
  let a := fst (run_op op w) in
  let w' := snd (run_op op w) in
  NoDup (Map_keys (bvhMeshes w')) /\
  (Map_has m (bvhMeshes w') = true <->
   (exists e, op = CallBuildBVH m /\ a = Built (Normal (Some e))) \/
   (Map_has m (bvhMeshes w) = true /\ ~ unregisters m (op, a))).
Proof.
  intros Hnd a w'. subst a w'. unfold unregisters.
  destruct op as [k|k| | | | |k o]; simpl.
  - pose proof (buildBVH_registry k w) as [Hother [Hnew [Hfrom [Hkeep [Hnd' _]]]]].
    destruct (buildBVH k w) as [r w']. simpl in *.
    split; [auto|]. split.
    + intros Hhas. destruct (Nat.eq_dec m k) as [->|Hne].
      * destruct (Hfrom Hhas) as [Hold|[e ->]].
        -- right. split; [assumption | intros [?|?]; discriminate].
        -- left. eauto.
      * right. rewrite <- (Hother m Hne). split; [assumption|].
        intros [?|?]; discriminate.
    + intros [[e [[= ->] [= ->]]]|[Hold _]].
      * apply Hnew. eauto.
      * destruct (Nat.eq_dec m k) as [->|Hne]; [auto | now rewrite Hother].
  - split; [now apply Map_delete_NoDup|]. split.
    + intros Hhas. right. destruct (Nat.eq_dec m k) as [->|Hne].
      * rewrite Map_has_delete in Hhas by assumption. discriminate.
      * rewrite Map_has_delete_other in Hhas by assumption.
        split; [assumption | intros [[= ?]|?]; [congruence | discriminate]].
    + intros [[e [? _]]|[Hold Hkept]]; [discriminate|].
      rewrite Map_has_delete_other; [assumption|].
      intros ->. apply Hkept. now left.
  - split; [now rewrite updateMatrices_keys|].
    rewrite (Map_has_keys (bvhMeshes w) (bvhMeshes (updateMatrices w)) m
                          (updateMatrices_keys w)).
    split.
    + intros Hhas. right. split; [assumption | intros [?|?]; discriminate].
    + intros [[e [? _]]|[Hold _]]; [discriminate | assumption].
  - split; [assumption|]. split.
    + intros Hhas. right. split; [assumption | intros [?|?]; discriminate].
    + intros [[e [? _]]|[Hold _]]; [discriminate | assumption].
  - split; [assumption|]. split.
    + intros Hhas. right. split; [assumption | intros [?|?]; discriminate].
    + intros [[e [? _]]|[Hold _]]; [discriminate | assumption].
  - split; [constructor|]. split.
    + discriminate.
    + intros [[e [? _]]|[_ Hkept]]; [discriminate|]. exfalso. apply Hkept. now right.
  - split; [assumption|]. split.
    + intros Hhas. right. split; [assumption | intros [?|?]; discriminate].
    + intros [[e [? _]]|[Hold _]]; [discriminate | assumption].
Qed.

Lemma run_cons (op : Op) (rest : list Op) (w : World) :
  run (op :: rest) w
  = ((op, fst (run_op op w)) :: fst (run rest (snd (run_op op w))),
     snd (run rest (snd (run_op op w)))).
Proof.
  simpl. destruct (run_op op w) as [a w1]. simpl.
  now destruct (run rest w1) as [history w2].
Qed.

(** From any map without a repeated key: the keys stay without repeat,
    and a mesh has an entry at the end exactly when some [buildBVH] of it
    returned an entry with no removal after, or it had one at the start
    and no call took it away. *)
Lemma run_registry (m : MeshRef) (ops : list Op) :
  forall w,
    NoDup (Map_keys (bvhMeshes w)) ->
    NoDup (Map_keys (bvhMeshes (snd (run ops w)))) /\
    (Map_has m (bvhMeshes (snd (run ops w))) = true <->
     built_since_removed m (fst (run ops w)) \/
     (Map_has m (bvhMeshes w) = true /\
      Forall (fun call => ~ unregisters m call) (fst (run ops w)))).
Proof.
  induction ops as [|op rest IH]; intros w Hnd.
  - simpl. split; [assumption|]. split.
    + intros Hhas. right. split; [assumption | constructor].
    + intros [[before [e [after [Heq _]]]]|[Hhas _]]; [|assumption].
      destruct before; discriminate.
  - rewrite run_cons. cbn [fst snd].
    destruct (run_op_has m op w Hnd) as [Hnd1 Hstep].
    destruct (IH _ Hnd1) as [Hnd2 Hrest].
    split; [assumption|]. rewrite Hrest. split.
    + intros [[before [e [after [Heq Hafter]]]]|[Hhas1 Hkept]].
      * left. exists ((op, fst (run_op op w)) :: before), e, after.
        split; [simpl; now rewrite Heq | assumption].
      * apply Hstep in Hhas1 as [[e [-> Hans]]|[Hhas0 Hnot]].
        -- left. exists [], e, (fst (run rest (snd (run_op (CallBuildBVH m) w)))).
           split; [now rewrite Hans | assumption].
        -- right. split; [assumption | now constructor].
    + intros [[before [e [after [Heq Hafter]]]]|[Hhas0 Hkept]].
      * destruct before as [|c before]; simpl in Heq.
        -- injection Heq as -> Hans Hrest'. right. split.
           ++ apply Hstep. left. exists e. split; [reflexivity | assumption].
           ++ now rewrite Hrest'.
        -- injection Heq as _ Hrest'. left. exists before, e, after. auto.
      * inversion Hkept as [|? ? Hnot Hkept']; subst.
        right. split; [|assumption]. apply Hstep. right. auto.
Qed.

(** C6.  Starting from a new manager, after any sequence of calls (with
    the caller writing to meshes in between), no mesh has two entries,
    and a mesh has an entry exactly when some [buildBVH] of it returned an
    entry and neither [removeBVH] of it nor [clear] was called after. *)
Theorem registry_matches_history (scene : MeshRef -> Mesh) (ops : list Op) :
  let history := fst (run ops (new_BVHManager scene)) in
  let w := snd (run ops (new_BVHManager scene)) in
  NoDup (Map_keys (bvhMeshes w)) /\
  forall m, Map_has m (bvhMeshes w) = true <-> built_since_removed m history.
Proof.
  intros history w. subst history w.
  split.
  - apply (run_registry 0 ops). constructor.
  - intros m.
    destruct (run_registry m ops (new_BVHManager scene)) as [_ Hiff];
      [constructor|].
    rewrite Hiff. split; [|now left].
    intros [Hbuilt|[Hhas _]]; [assumption | discriminate].
Qed.

(** Every world a sequence of calls reaches from a new manager is well
    formed. *)
Lemma run_well_formed (ops : list Op) :
  forall w, well_formed w = true -> well_formed (snd (run ops w)) = true.
Proof.
  induction ops as [|op rest IH]; intros w Hwf; [assumption|].
  rewrite run_cons. cbn [snd]. apply IH. now apply run_op_well_formed.
Qed.

Lemma run_unregistered (m : MeshRef) (ops : list Op) :
  forall w,
    well_formed w = true ->
    Map_has m (bvhMeshes w) = false ->
    forallb (fun op => negb (is_buildBVH_of m op)) ops = true ->
    Map_has m (bvhMeshes (snd (run ops w))) = false.
Proof.
  induction ops as [|op rest IH]; intros w Hwf Hhas Hops; [assumption|].
  simpl in Hops. apply andb_true_iff in Hops as [Hop Hrest].
  rewrite run_cons. cbn [snd].
  apply IH; [now apply run_op_well_formed | | assumption].
  apply well_formed_spec in Hwf as [Hnd _].
  destruct (run_op_has m op w Hnd) as [_ Hstep].
  apply not_true_is_false. intros Hafter.
  apply Hstep in Hafter as [[e [-> _]]|[Hbefore _]]; [|congruence].
  simpl in Hop. now rewrite Nat.eqb_refl in Hop.
Qed.

Lemma reachable_well_formed (scene : MeshRef -> Mesh) (ops : list Op) :
  well_formed (snd (run ops (new_BVHManager scene))) = true.
Proof. now apply run_well_formed. Qed.

(** C3.  After [removeBVH(m)], and for as long as [buildBVH(m)] is not
    called again, [m] has no entry and the queries ignore it: no per-mesh
    hit and no answer of [raycast] or [sphereCast] has [m] as its object,
    and [raycast], [sphereCast], [getGroundHeight] and [isOnGround]
    answer the same whatever the state of [m]. *)
Theorem removeBVH_makes_queries_ignore (m : MeshRef) (w : World) (ops : list Op) :
  well_formed w = true ->
  forallb (fun op => negb (is_buildBVH_of m op)) ops = true ->
  Map_has m (bvhMeshes (snd (run ops (removeBVH m w)))) = false /\
  ignores (snd (run ops (removeBVH m w))) m.
Proof.
  intros Hwf Hops.
  assert (well_formed (removeBVH m w) = true) as Hwf1
      by exact (run_op_well_formed (CallRemoveBVH m) w Hwf).
  assert (Map_has m (bvhMeshes (removeBVH m w)) = false) as Hgone.
  { simpl. apply Map_has_delete. now apply well_formed_spec in Hwf as [Hnd _]. }
  pose proof (run_unregistered m ops _ Hwf1 Hgone Hops) as Hstill.
  split; [assumption|].
  apply unregistered_ignored; [now apply run_well_formed | assumption].
Qed.

End Registry.

(* ===================================================================== *)
(** ** updateMatrices and the cached inverses *)
(* ===================================================================== *)

Section Refresh.
Context {N : JSNumber} {T : Three N} {B : ThreeMeshBVH T}.

Lemma updateMatrixWorld_idem (o : Mesh) :
  updateMatrixWorld (updateMatrixWorld o) = updateMatrixWorld o.
Proof. reflexivity. Qed.

Lemma store_update_placement (h : MeshRef -> Mesh) (m k : MeshRef) :
  placement (store h m (updateMatrixWorld (h m)) k) = placement (h k).
Proof.
  unfold store. destruct (Nat.eqb_spec k m) as [->|Hne]; reflexivity.
Qed.

(** The loop of [updateMatrices] in closed form: the meshes that some
    entry names get their world matrix recomputed, and every entry gets
    the inverse of the recomputed world matrix of its mesh. *)
Lemma updateMatrices_loop_spec (l : list (MeshRef * BVHMesh)) :
  forall h : MeshRef -> Mesh,
    (forall k, fst (updateMatrices_loop h l) k
               = if names l k then updateMatrixWorld (h k) else h k) /\
    snd (updateMatrices_loop h l)
    = map (fun kv =>
             (fst kv,
              set_invMatrixWorld
                (Matrix4_invert (worldMatrixOf (placement (h (mesh (snd kv))))))
                (snd kv)))
          l.
Proof.
  induction l as [|[k0 e0] t IH]; intros h; simpl.
  - split; reflexivity.
  - destruct (IH (store h (mesh e0) (updateMatrixWorld (h (mesh e0))))) as [IHh IHl].
    destruct (updateMatrices_loop _ t) as [h2 t']. simpl in *. split.
    + intros k. rewrite IHh.
      destruct (Nat.eqb_spec (mesh e0) k) as [<-|Hne]; simpl.
      * rewrite store_same. now destruct (names t (mesh e0)).
      * rewrite store_other by congruence. reflexivity.
    + rewrite store_same. simpl. f_equal. rewrite IHl.
      apply map_ext. intros [k e]. simpl. now rewrite store_update_placement.
Qed.

Lemma updateMatrices_heap (w : World) (k : MeshRef) :
  heap (updateMatrices w) k
  = if names (bvhMeshes w) k then updateMatrixWorld (heap w k) else heap w k.
Proof.
  unfold updateMatrices.
  destruct (updateMatrices_loop_spec (bvhMeshes w) (heap w)) as [Hh _].
  destruct (updateMatrices_loop (heap w) (bvhMeshes w)) as [h l]. apply Hh.
Qed.

Lemma updateMatrices_bvhMeshes (w : World) :
  bvhMeshes (updateMatrices w)
  = map (fun kv =>
           (fst kv,
            set_invMatrixWorld
              (Matrix4_invert (worldMatrixOf (placement (heap w (mesh (snd kv))))))
              (snd kv)))
        (bvhMeshes w).
Proof.
  unfold updateMatrices.
  destruct (updateMatrices_loop_spec (bvhMeshes w) (heap w)) as [_ Hl].
  destruct (updateMatrices_loop (heap w) (bvhMeshes w)) as [h l]. apply Hl.
Qed.

Lemma names_In (l : list (MeshRef * BVHMesh)) (k : MeshRef) (e : BVHMesh) :
  In (k, e) l -> names l (mesh e) = true.
Proof.
  intros Hin. unfold names. apply existsb_exists. exists (k, e).
  split; [assumption | apply Nat.eqb_refl].
Qed.

Lemma names_refreshed (w : World) (k : MeshRef) :
  names (bvhMeshes (updateMatrices w)) k = names (bvhMeshes w) k.
Proof.
  rewrite updateMatrices_bvhMeshes. unfold names.
  induction (bvhMeshes w) as [|[k0 e0] t IH]; simpl; [reflexivity | now rewrite IH].
Qed.

Lemma updateMatrices_world_matrix (w : World) (k : MeshRef) (e : BVHMesh) :
  In (k, e) (bvhMeshes (updateMatrices w)) ->
  matrixWorld (heap (updateMatrices w) (mesh e))
  = worldMatrixOf (placement (heap w (mesh e))) /\
  invMatrixWorld e = Matrix4_invert (worldMatrixOf (placement (heap w (mesh e)))).
Proof.
  intros Hin. rewrite updateMatrices_heap.
  pose proof Hin as Hin'. rewrite updateMatrices_bvhMeshes in Hin'.
  apply in_map_iff in Hin' as [[k0 e0] [[= <- <-] Hin0]]. simpl.
  rewrite (names_In _ _ _ Hin0). split; reflexivity.
Qed.

Lemma updateMatrices_coherent (w : World) : coherent (updateMatrices w).
Proof.
  intros k e Hin.
  destruct (updateMatrices_world_matrix w k e Hin) as [Hworld Hinv].
  now rewrite Hworld.
Qed.

(** X1.  [updateMatrices] keeps the keys, their order, and the mesh and
    the structure of every entry; it recomputes the world matrix of
    exactly the meshes that entries name, and leaves every entry with the
    inverse of its mesh's new world matrix, stale or not before.  Nothing
    is logged, and a second [updateMatrices] changes nothing. *)
Theorem updateMatrices_refreshes_every_entry (w : World) :
  let w' := updateMatrices w in
  Map_keys (bvhMeshes w') = Map_keys (bvhMeshes w) /\
  map (fun kv => (mesh (snd kv), bvh (snd kv))) (bvhMeshes w')
  = map (fun kv => (mesh (snd kv), bvh (snd kv))) (bvhMeshes w) /\
  coherent w' /\
  (forall k e, In (k, e) (bvhMeshes w') ->
               matrixWorld (heap w' (mesh e))
               = worldMatrixOf (placement (heap w (mesh e)))) /\
  (forall k, heap w' k
             = if names (bvhMeshes w) k then updateMatrixWorld (heap w k) else heap w k) /\
  trace w' = trace w /\
  bvhMeshes (updateMatrices w') = bvhMeshes w' /\
  (forall k, heap (updateMatrices w') k = heap w' k).
Proof.
  intros w'. subst w'.
  split; [apply updateMatrices_keys|].
  split.
  { rewrite updateMatrices_bvhMeshes, map_map. apply map_ext. now intros [k e]. }
  split; [apply updateMatrices_coherent|].
  split; [intros k e Hin; now apply (updateMatrices_world_matrix w k e)|].
  split; [apply updateMatrices_heap|].
  split.
  { unfold updateMatrices.
    now destruct (updateMatrices_loop (heap w) (bvhMeshes w)). }
  split.
  - rewrite (updateMatrices_bvhMeshes (updateMatrices w)).
    rewrite (updateMatrices_bvhMeshes w), map_map. apply map_ext.
    intros [k e]. simpl. rewrite updateMatrices_heap.
    now destruct (names (bvhMeshes w) (mesh e)).
  - intros k. rewrite (updateMatrices_heap (updateMatrices w)), names_refreshed.
    rewrite updateMatrices_heap. now destruct (names (bvhMeshes w) k).
Qed.

Lemma In_Map_get {V : Type} (l : list (MeshRef * V)) (k : MeshRef) (v : V) :
  NoDup (Map_keys l) -> In (k, v) l -> Map_get k l = Some v.
Proof.
  unfold Map_keys.
  induction l as [|[k0 v0] t IH]; simpl; intros Hnd Hin; [contradiction|].
  inversion Hnd as [|? ? Hnotin Hnd']; subst.
  destruct Hin as [[= -> ->]|Hin].
  - now rewrite Nat.eqb_refl.
  - destruct (Nat.eqb_spec k k0) as [->|Hne]; [|auto].
    exfalso. apply Hnotin. now apply (in_map fst) in Hin.
Qed.

Lemma prepared_matrixWorld (m k : MeshRef) (g : BufferGeometry) (w : World) :
  matrixWorld (heap (prepared m g w) k) = matrixWorld (heap w k).
Proof.
  unfold prepared. destruct (geometry_index g); simpl; [reflexivity|].
  unfold store. destruct (Nat.eqb_spec k m) as [->|Hne]; reflexivity.
Qed.

Lemma buildBVH_coherent (m : MeshRef) (w : World) :
  well_formed w = true -> coherent w -> coherent (snd (buildBVH m w)).
Proof.
  intros Hwf Hco.
  pose proof (run_op_well_formed (CallBuildBVH m) w Hwf) as Hwf'.
  simpl in Hwf'.
  destruct (buildBVH_cases m w)
    as [[Hgeo Heq]|[[g [e [Hgeo [Hget Heq]]]]|[[g [err [Hgeo [Hget [Hnew Heq]]]]]
                                              |[g [b [Hgeo [Hget [Hnew Heq]]]]]]]];
    rewrite Heq in *; cbn [fst snd] in *.
  - exact Hco.
  - exact Hco.
  - intros k e Hin. simpl in *. rewrite prepared_bvhMeshes in Hin.
    rewrite prepared_matrixWorld. now apply (Hco k).
  - apply well_formed_spec in Hwf' as [Hnd' Hnames'].
    apply well_formed_spec in Hwf as [Hnd Hnames].
    intros k e Hin.
    pose proof (Hnames' k e Hin) as Hname.
    apply In_Map_get in Hin; [|assumption].
    destruct (Nat.eq_dec k m) as [->|Hne].
    + rewrite built_get_same in Hin. injection Hin as <-. reflexivity.
    + rewrite built_get_other in Hin by assumption.
      apply Map_get_In in Hin.
      rewrite Hname, built_heap_other by assumption.
      rewrite <- Hname. now apply (Hco k).
Qed.

Lemma run_op_coherent (op : Op) (w : World) :
  well_formed w = true -> coherent w -> is_caller_write op = false ->
  coherent (snd (run_op op w)).
Proof.
  intros Hwf Hco Hop.
  destruct op as [m|m| | | | |m o]; simpl; try assumption; try discriminate.
  - pose proof (buildBVH_coherent m w Hwf Hco) as Hco'.
    now destruct (buildBVH m w).
  - intros k e Hin. apply (Hco k). simpl in Hin. now apply Map_delete_In in Hin.
  - apply updateMatrices_coherent.
  - intros k e [].
Qed.

Lemma run_coherent (ops : list Op) :
  forall w,
    well_formed w = true -> coherent w ->
    forallb (fun op => negb (is_caller_write op)) ops = true ->
    coherent (snd (run ops w)).
Proof.
  induction ops as [|op rest IH]; intros w Hwf Hco Hops; [assumption|].
  simpl in Hops. apply andb_true_iff in Hops as [Hop Hrest].
  rewrite run_cons. cbn [snd].
  apply IH; [now apply run_op_well_formed | | assumption].
  apply run_op_coherent; auto. now apply negb_true_iff.
Qed.

(** X2.  Once [updateMatrices] has run, the cached inverses stay exact
    through any further calls of the manager ([buildBVH], [removeBVH],
    [updateMatrices], the casts, [clear]) for as long as the caller does
    not write to a mesh. *)
Theorem cache_stays_coherent (w : World) (ops : list Op) :
  well_formed w = true ->
  forallb (fun op => negb (is_caller_write op)) ops = true ->
  coherent (snd (run ops (updateMatrices w))).
Proof.
  intros Hwf Hops. apply run_coherent; [| apply updateMatrices_coherent | assumption].
  exact (run_op_well_formed CallUpdateMatrices w Hwf).
Qed.

End Refresh.

(* ===================================================================== *)
(** ** Equal distances: the mesh registered first wins *)
(* ===================================================================== *)

Section Ties.
Context {N : JSNumber} {T : Three N} {B : ThreeMeshBVH T} {O : JSNumberOrder N}.

(** Where in the sequence of per-mesh hits the loop's answer stands: no
    hit before it has its distance, and no hit after it is nearer. *)
Lemma fold_closer_first (cs : list (option Intersection)) :
  forall (acc : Closest) (h : Intersection),
    fst (fold_left closer cs acc) = Some h ->
    fst acc = Some h \/
    exists before after,
      cs = before ++ Some h :: after /\
      num_lt (distance h) (snd acc) = true /\
      (forall c, In (Some c) before -> distance c <> distance h) /\
      (forall c, In (Some c) after -> num_lt (distance c) (distance h) = false).
Proof.
  induction cs as [|c0 cs IH]; intros acc h Hres; simpl in Hres; [now left|].
  destruct (IH _ _ Hres) as [Hacc|[before [after [Hsplit [Hnear [Hbefore Hafter]]]]]].
  - destruct c0 as [h0|]; simpl in Hacc; [|now left].
    destruct (num_lt (distance h0) (snd acc)) eqn:Hlt; [|now left].
    simpl in Hacc. injection Hacc as ->.
    right. exists [], cs. repeat split; auto.
    intros c Hin. simpl in Hres. rewrite Hlt in Hres.
    destruct (fold_closer_spec cs (Some h, distance h))
      as [[_ Hall]|[h' [Heq [Hin' [Hnear' _]]]]].
    + now apply Hall.
    + rewrite Heq in Hres. simpl in Hres. injection Hres as ->.
      simpl in Hnear'. now rewrite num_lt_irrefl in Hnear'.
  - right. exists (c0 :: before), after. subst cs.
    destruct c0 as [h0|]; simpl in Hnear.
    + destruct (num_lt (distance h0) (snd acc)) eqn:Hlt; simpl in Hnear.
      * repeat split; auto.
        -- now apply num_lt_trans with (distance h0).
        -- intros c [[= ->]|Hin]; [|auto].
           intros Heq. rewrite Heq, num_lt_irrefl in Hnear. discriminate.
      * repeat split; auto.
        intros c [[= ->]|Hin]; [|auto].
        intros Heq. rewrite Heq in Hlt. congruence.
    + repeat split; auto.
      intros c [Habs|Hin]; [discriminate | auto].
Qed.

Lemma cast_first (f : BVHMesh -> option Intersection) (l : list (MeshRef * BVHMesh))
    (range : number) (h : Intersection) :
  fst (Map_forEach (fun a e => closer a (f e)) l (None, range)) = Some h ->
  exists before k bvhMesh after,
    l = before ++ (k, bvhMesh) :: after /\
    f bvhMesh = Some h /\
    (forall k' e' c, In (k', e') before -> f e' = Some c -> distance c <> distance h) /\
    (forall k' e' c, In (k', e') after -> f e' = Some c ->
                     num_lt (distance c) (distance h) = false).
Proof.
  rewrite forEach_closer. intros Hres.
  apply fold_closer_first in Hres
    as [Habs|[before [after [Hsplit [_ [Hbefore Hafter]]]]]]; [discriminate|].
  apply map_eq_app in Hsplit as [lb [la [-> [Hlb Hla]]]].
  apply map_eq_cons in Hla as [[k e] [la' [-> [Hhit Hla']]]].
  simpl in Hhit. exists lb, k, e, la'. split; [reflexivity|]. split; [assumption|].
  split.
  - intros k' e' c Hin Hc. apply Hbefore. rewrite <- Hlb, <- Hc.
    now apply (in_map (fun kv => f (snd kv)) lb (k', e')).
  - intros k' e' c Hin Hc. apply Hafter. rewrite <- Hla', <- Hc.
    now apply (in_map (fun kv => f (snd kv)) la' (k', e')).
Qed.

(** X3.  The answer of [raycast] is the per-mesh hit of some entry; no
    mesh registered before that entry has a hit at the same distance, and
    no mesh registered after it has a nearer hit: of several hits at the
    closest distance, the one of the mesh registered first is returned. *)
Theorem raycast_ties_go_to_first_registered
    (w : World) (ray : Ray) (maxDistance : option number) (h : Intersection) :
  raycast w ray maxDistance = Some h ->
  exists before k bvhMesh after,
    bvhMeshes w = before ++ (k, bvhMesh) :: after /\
    raycast_mesh_hit w ray bvhMesh = Some h /\
    (forall k' e' c, In (k', e') before -> raycast_mesh_hit w ray e' = Some c ->
                     distance c <> distance h) /\
    (forall k' e' c, In (k', e') after -> raycast_mesh_hit w ray e' = Some c ->
                     num_lt (distance c) (distance h) = false).
Proof.
  rewrite raycast_as_cast. apply cast_first.
Qed.

(** X4.  The same for [sphereCast]: among per-mesh hits at the same
    distance from the sphere's centre, the one of the mesh registered
    first is returned. *)
Theorem sphereCast_ties_go_to_first_registered
    (w : World) (sphere : Sphere) (direction : Vector3) (maxDistance : option number)
    (h : Intersection) :
  sphereCast w sphere direction maxDistance = Some h ->
  let range := default_arg maxDistance Infinity in
  exists before k bvhMesh after,
    bvhMeshes w = before ++ (k, bvhMesh) :: after /\
    sphereCast_mesh_hit w sphere direction range bvhMesh = Some h /\
    (forall k' e' c, In (k', e') before ->
                     sphereCast_mesh_hit w sphere direction range e' = Some c ->
                     distance c <> distance h) /\
    (forall k' e' c, In (k', e') after ->
                     sphereCast_mesh_hit w sphere direction range e' = Some c ->
                     num_lt (distance c) (distance h) = false).
Proof.
  rewrite sphereCast_as_cast. apply cast_first.
Qed.

End Ties.

(* ===================================================================== *)
(** ** Removing, clearing, listing, registering again *)
(* ===================================================================== *)

Section RegistryEdges.
Context {N : JSNumber} {T : Three N} {B : ThreeMeshBVH T}.

Lemma Map_delete_absent {V : Type} (l : list (MeshRef * V)) (k : MeshRef) :
  Map_has k l = false -> Map_delete k l = l.
Proof.
  unfold Map_has.
  induction l as [|[k0 v0] t IH]; simpl; [reflexivity|].
  destruct (Nat.eqb k k0); [discriminate|].
  intros Hnone. now rewrite IH.
Qed.

Lemma Map_delete_filter {V : Type} (l : list (MeshRef * V)) (k : MeshRef) :
  NoDup (Map_keys l) ->
  Map_delete k l = filter (fun kv => negb (Nat.eqb k (fst kv))) l.
Proof.
  unfold Map_keys.
  induction l as [|[k0 v0] t IH]; simpl; intros Hnd; [reflexivity|].
  inversion Hnd as [|? ? Hnotin Hnd']; subst.
  destruct (Nat.eqb_spec k k0) as [->|Hne]; simpl.
  - rewrite <- IH by assumption. symmetry. apply Map_delete_absent.
    now apply Map_has_false.
  - now rewrite IH.
Qed.

Lemma set_bvhMeshes_same (w : World) : set_bvhMeshes w (bvhMeshes w) = w.
Proof. now destruct w. Qed.

(** X5.  [removeBVH(m)] takes away the entry of [m] and nothing else: the
    other entries stay, in their order, no mesh is written and nothing is
    logged.  For a mesh without entry it changes nothing at all, so a
    second [removeBVH(m)] is without effect. *)
Theorem removeBVH_only_drops_its_entry (m : MeshRef) (w : World) :
  NoDup (Map_keys (bvhMeshes w)) ->
  bvhMeshes (removeBVH m w)
  = filter (fun kv => negb (Nat.eqb m (fst kv))) (bvhMeshes w) /\
  heap (removeBVH m w) = heap w /\
  trace (removeBVH m w) = trace w /\
  (Map_has m (bvhMeshes w) = false -> removeBVH m w = w) /\
  removeBVH m (removeBVH m w) = removeBVH m w.
Proof.
  intros Hnd. unfold removeBVH. simpl.
  split; [now apply Map_delete_filter|].
  split; [reflexivity|]. split; [reflexivity|]. split.
  - intros Hhas. rewrite Map_delete_absent by assumption. apply set_bvhMeshes_same.
  - unfold set_bvhMeshes. simpl. f_equal.
    apply Map_delete_absent. now apply Map_has_delete.
Qed.

Lemma remove_all_keys (l : list (MeshRef * BVHMesh)) (h : MeshRef -> Mesh)
    (t : list Event) :
  fold_left (fun v k => removeBVH k v) (Map_keys l)
            {| heap := h; bvhMeshes := l; trace := t |}
  = {| heap := h; bvhMeshes := []; trace := t |}.
Proof.
  induction l as [|[k e] rest IH]; simpl; [reflexivity|].
  unfold removeBVH at 2. unfold set_bvhMeshes. simpl.
  rewrite Nat.eqb_refl. apply IH.
Qed.

(** X6.  [clear()] is [removeBVH] of every registered mesh.  Afterwards
    the list of entries is empty and every query answers [null] (or
    [false]), whatever the ray, the sphere or the point; the meshes and
    the log are as before. *)
Theorem clear_removes_every_entry (w : World) :
  fold_left (fun v k => removeBVH k v) (Map_keys (bvhMeshes w)) w = clear w /\
  getAllBVHMeshes (clear w) = [] /\
  (forall ray d, raycast (clear w) ray d = None) /\
  (forall sphere direction d, sphereCast (clear w) sphere direction d = None) /\
  (forall px pz d, getGroundHeight (clear w) px pz d = None) /\
  (forall position threshold d, isOnGround (clear w) position threshold d = false) /\
  heap (clear w) = heap w /\
  trace (clear w) = trace w.
Proof.
  split.
  - destruct w as [h l t]. apply remove_all_keys.
  - repeat split.
Qed.

Lemma getAllBVHMeshes_meshes (w : World) :
  well_formed w = true ->
  map mesh (getAllBVHMeshes w) = Map_keys (bvhMeshes w).
Proof.
  intros Hwf. apply well_formed_spec in Hwf as [_ Hnames].
  unfold getAllBVHMeshes, Map_keys. rewrite map_map.
  apply map_ext_in. intros [k e] Hin. simpl. now apply Hnames.
Qed.

(** X7.  In every state the manager reaches, [getAllBVHMeshes] lists one
    record per registered mesh, in the order of registration; the [mesh]
    field of a record is the mesh it is registered under, and the record
    is what the map holds for that mesh. *)
Theorem getAllBVHMeshes_lists_the_entries (scene : MeshRef -> Mesh) (ops : list Op) :
  let w := snd (run ops (new_BVHManager scene)) in
  map mesh (getAllBVHMeshes w) = Map_keys (bvhMeshes w) /\
  NoDup (map mesh (getAllBVHMeshes w)) /\
  (forall e, In e (getAllBVHMeshes w) <-> Map_get (mesh e) (bvhMeshes w) = Some e) /\
  (forall m, Map_has m (bvhMeshes w) = true <-> In m (map mesh (getAllBVHMeshes w))).
Proof.
  intros w.
  assert (well_formed w = true) as Hwf by apply reachable_well_formed.
  pose proof (getAllBVHMeshes_meshes w Hwf) as Hmeshes.
  pose proof Hwf as Hwf'. apply well_formed_spec in Hwf' as [Hnd Hnames].
  split; [assumption|]. split; [now rewrite Hmeshes|]. split.
  - intros e. unfold getAllBVHMeshes. rewrite in_map_iff. split.
    + intros [[k e'] [Heq Hin]]. simpl in Heq. subst e'.
      rewrite (Hnames k e Hin). now apply In_Map_get.
    + intros Hget. exists (mesh e, e). split; [reflexivity|].
      now apply Map_get_In.
  - intros m. rewrite Hmeshes. apply Map_has_In.
Qed.

(** X8.  Removing a registered mesh and building it again does not bring
    the old entry back: a new structure is constructed from the mesh's
    geometry, the inverse is taken from the mesh's placement as it is
    now, and the mesh goes to the end of the registration order. *)
Theorem removeBVH_then_buildBVH_rebuilds
    (m : MeshRef) (w : World) (g : BufferGeometry) (b : MeshBVH) :
  well_formed w = true ->
  geometry (heap w m) = Some g ->
  MeshBVH_new (ensured g) build_options = Normal b ->
  exists e,
    fst (buildBVH m (removeBVH m w)) = Normal (Some e) /\
    mesh e = m /\
    bvh e = b /\
    invMatrixWorld e = Matrix4_invert (worldMatrixOf (placement (heap w m))) /\
    Map_get m (bvhMeshes (snd (buildBVH m (removeBVH m w)))) = Some e /\
    Map_keys (bvhMeshes (snd (buildBVH m (removeBVH m w))))
    = filter (fun k => negb (Nat.eqb m k)) (Map_keys (bvhMeshes w)) ++ [m] /\
    trace (snd (buildBVH m (removeBVH m w))) = NewMeshBVH (ensured g) :: trace w.
Proof.
  intros Hwf Hgeo Hnew.
  apply well_formed_spec in Hwf as [Hnd _].
  assert (Map_get m (bvhMeshes (removeBVH m w)) = None) as Hgone.
  { apply Map_get_None. simpl. now apply Map_has_delete. }
  destruct (buildBVH_cases m (removeBVH m w))
    as [[Hgeo' _]|[[g' [e [_ [Hget _]]]]|[[g' [err [Hgeo' [_ [Hnew' _]]]]]
                                         |[g' [b' [Hgeo' [_ [Hnew' Heq]]]]]]]].
  - simpl in Hgeo'. congruence.
  - congruence.
  - simpl in Hgeo'. assert (g' = g) as -> by congruence. congruence.
  - simpl in Hgeo'. assert (g' = g) as -> by congruence.
    assert (b' = b) as -> by congruence.
    rewrite Heq. cbn [fst snd]. exists (built_entry m g b (removeBVH m w)).
    split; [reflexivity|]. split; [reflexivity|]. split; [reflexivity|].
    split.
    { unfold built_entry. cbn [invMatrixWorld].
      now rewrite (built_heap_same m g b (removeBVH m w) Hgeo). }
    split; [apply built_get_same|]. split.
    + rewrite built_keys by assumption. f_equal. simpl.
      rewrite Map_delete_filter by assumption. unfold Map_keys.
      clear. induction (bvhMeshes w) as [|[k e] t IH]; simpl; [reflexivity|].
      destruct (Nat.eqb m k); simpl; now rewrite IH.
    + now rewrite built_trace.
Qed.

(** X9.  In a well-formed state every answer of [raycast] and of
    [sphereCast] names a mesh that has an entry, and its [distance] is
    the distance from the ray's origin (the sphere's centre) to its
    [point]. *)
Theorem cast_answers_name_registered_meshes (w : World) :
  well_formed w = true ->
  (forall ray d h,
      raycast w ray d = Some h ->
      Map_has (object h) (bvhMeshes w) = true /\
      distance h = Vector3_distanceTo (origin ray) (point h)) /\
  (forall sphere direction d h,
      sphereCast w sphere direction d = Some h ->
      Map_has (object h) (bvhMeshes w) = true /\
      distance h = Vector3_distanceTo (center sphere) (point h)).
Proof.
  intros Hwf. apply well_formed_spec in Hwf as [_ Hnames].
  assert (forall k e, In (k, e) (bvhMeshes w) -> Map_has (mesh e) (bvhMeshes w) = true)
    as Hreg.
  { intros k e Hin. rewrite (Hnames k e Hin). apply Map_has_In.
    unfold Map_keys. now apply (in_map fst) in Hin. }
  split.
  - intros ray d h Hres. apply raycast_In_hits in Hres.
    apply In_raycast_hits in Hres as [k [e [hit [Hin [_ ->]]]]]. simpl.
    split; [now apply (Hreg k) | reflexivity].
  - intros sphere direction d h Hres. apply sphereCast_In_hits in Hres.
    apply In_sphereCast_hits in Hres as [k [e [hit [Hin [_ [_ ->]]]]]]. simpl.
    split; [now apply (Hreg k) | reflexivity].
Qed.

End RegistryEdges.

(* ===================================================================== *)
(** ** The registration hook *)
(* ===================================================================== *)

Section SetFacts.

Lemma Set_has_In (m : MeshRef) (s : list MeshRef) : Set_has m s = true <-> In m s.
Proof.
  unfold Set_has. rewrite existsb_exists. split.
  - intros [k [Hin Heq]]. apply Nat.eqb_eq in Heq. now subst.
  - intros Hin. exists m. split; [assumption | apply Nat.eqb_refl].
Qed.

Lemma Set_add_In (m k : MeshRef) (s : list MeshRef) :
  In k (Set_add m s) <-> In k s \/ k = m.
Proof.
  unfold Set_add. destruct (Set_has m s) eqn:Hhas.
  - apply Set_has_In in Hhas. split; [auto | intros [H| ->]; assumption].
  - rewrite in_app_iff. simpl. split.
    + intros [H|[<-|[]]]; auto.
    + intros [H| ->]; auto.
Qed.

Lemma Set_add_NoDup (m : MeshRef) (s : list MeshRef) : NoDup s -> NoDup (Set_add m s).
Proof.
  intros Hnd. unfold Set_add. destruct (Set_has m s) eqn:Hhas; [assumption|].
  apply NoDup_app; [assumption | repeat constructor; simpl; tauto |].
  intros k Hin [<-|[]]. apply Set_has_In in Hin. congruence.
Qed.

Lemma Set_delete_In (m k : MeshRef) (s : list MeshRef) :
  In k (Set_delete m s) <-> In k s /\ k <> m.
Proof.
  unfold Set_delete. rewrite filter_In, negb_true_iff, Nat.eqb_neq.
  split; intros [H1 H2]; split; auto.
Qed.

Lemma includes_In (meshes : list (option MeshRef)) (k : MeshRef) :
  includes meshes k = true <-> In (Some k) meshes.
Proof.
  unfold includes. rewrite existsb_exists. split.
  - intros [[k'|] [Hin Heq]]; [|discriminate].
    apply Nat.eqb_eq in Heq. now subst.
  - intros Hin. exists (Some k). split; [assumption | apply Nat.eqb_refl].
Qed.

End SetFacts.

Section HookFacts.
Context {N : JSNumber} {T : Three N} {B : ThreeMeshBVH T}.

Lemma buildBVH_normal (m : MeshRef) (w : World) :
  exists r, fst (buildBVH m w) = Normal r.
Proof.
  destruct (buildBVH_cases m w)
    as [[_ Heq]|[[g [e [_ [_ Heq]]]]|[[g [err [_ [_ [_ Heq]]]]]|[g [b [_ [_ [_ Heq]]]]]]]];
    rewrite Heq; simpl; eauto.
Qed.

Lemma register_mesh_spec (r : list MeshRef) (mesh : option MeshRef) (w : World) :
  hook_ok r w ->
  exists r' w',
    register_mesh r mesh w = (Normal r', w') /\
    hook_ok r' w' /\
    (forall k, Map_has k (bvhMeshes w) = true -> Map_has k (bvhMeshes w') = true) /\
    (forall k, In k r -> In k r') /\
    (forall k, In k r' -> In k r \/ mesh = Some k) /\
    (forall k, mesh <> Some k -> Map_has k (bvhMeshes w') = Map_has k (bvhMeshes w)).
Proof.
  intros [Hnd [Hwf Hreg]]. unfold register_mesh.
  destruct mesh as [m|]; [|exists r, w; repeat split; auto].
  destruct (Set_has m r) eqn:Hhas; simpl; [exists r, w; repeat split; auto|].
  unfold bind.
  pose proof (buildBVH_registry m w) as [Hother [Hnew [_ [Hkeep _]]]].
  pose proof (run_op_well_formed (CallBuildBVH m) w Hwf) as Hwf'. simpl in Hwf'.
  destruct (buildBVH_normal m w) as [res Hres].
  destruct (buildBVH m w) as [c w']. simpl in *. subst c.
  assert (forall k, Map_has k (bvhMeshes w) = true -> Map_has k (bvhMeshes w') = true)
    as Hmono.
  { intros k Hk. destruct (Nat.eq_dec k m) as [->|Hne]; [auto | now rewrite Hother]. }
  destruct res as [e|]; unfold ret.
  - exists (Set_add m r), w'. split; [reflexivity|]. split.
    + split; [now apply Set_add_NoDup|]. split; [assumption|].
      intros k Hin. apply Set_add_In in Hin as [Hin| ->]; [auto|].
      apply Hnew. eauto.
    + repeat split; auto.
      * intros k Hin. apply Set_add_In. now left.
      * intros k Hin. apply Set_add_In in Hin as [Hin| ->]; auto.
  - exists r, w'. split; [reflexivity|]. repeat split; auto.
Qed.

Lemma register_meshes_spec (meshes : list (option MeshRef)) :
  forall (r : list MeshRef) (w : World),
    hook_ok r w ->
    exists r' w',
      register_meshes meshes r w = (Normal r', w') /\
      hook_ok r' w' /\
      (forall k, Map_has k (bvhMeshes w) = true -> Map_has k (bvhMeshes w') = true) /\
      (forall k, In k r -> In k r') /\
      (forall k, In k r' -> In k r \/ includes meshes k = true) /\
      (forall k, includes meshes k = false ->
                 Map_has k (bvhMeshes w') = Map_has k (bvhMeshes w)).
Proof.
  induction meshes as [|mesh rest IH]; intros r w Hok; simpl.
  - exists r, w. repeat split; auto; apply Hok.
  - destruct (register_mesh_spec r mesh w Hok)
      as [r1 [w1 [Heq1 [Hok1 [Hmono1 [Hkeep1 [Hfrom1 Hother1]]]]]]].
    destruct (IH r1 w1 Hok1)
      as [r2 [w2 [Heq2 [Hok2 [Hmono2 [Hkeep2 [Hfrom2 Hother2]]]]]]].
    exists r2, w2. unfold bind at 1. rewrite Heq1.
    split; [assumption|]. split; [assumption|].
    repeat split; auto.
    + intros k Hin. destruct (Hfrom2 k Hin) as [Hin1|Hinc].
      * destruct (Hfrom1 k Hin1) as [Hin0| ->]; [now left|].
        right. now rewrite Nat.eqb_refl.
      * right. rewrite Hinc. apply orb_true_r.
    + intros k Hnot. apply orb_false_iff in Hnot as [Hhead Hrest].
      rewrite Hother2 by assumption. apply Hother1.
      intros ->. now rewrite Nat.eqb_refl in Hhead.
Qed.

(** The loop of the cleanup, from any state of its two variables. *)
Lemma cleanup_fold (meshes : list (option MeshRef)) (l : list MeshRef) :
  forall (racc : list MeshRef) (w : World),
    NoDup (Map_keys (bvhMeshes w)) ->
    let res := fold_left (cleanup_visit meshes) l (racc, w) in
    NoDup (Map_keys (bvhMeshes (snd res))) /\
    (forall k, In k (fst res) <-> In k racc /\ (In k l -> includes meshes k = true)) /\
    (forall k, Map_has k (bvhMeshes (snd res)) = true <->
               Map_has k (bvhMeshes w) = true /\ (In k l -> includes meshes k = true)) /\
    (forall kv, In kv (bvhMeshes (snd res)) -> In kv (bvhMeshes w)) /\
    (NoDup racc -> NoDup (fst res)) /\
    heap (snd res) = heap w /\
    trace (snd res) = trace w.
Proof.
  induction l as [|m rest IH]; intros racc w Hnd; simpl.
  - repeat split; auto; tauto.
  - assert (cleanup_visit meshes (racc, w) m
            = if includes meshes m then (racc, w)
              else (Set_delete m racc, removeBVH m w)) as Hvisit.
    { unfold cleanup_visit. simpl. now destruct (includes meshes m). }
    rewrite Hvisit. clear Hvisit.
    destruct (includes meshes m) eqn:Hinc.
    + destruct (IH racc w Hnd) as [Hnd' [Hset [Hmap [Hsub [Hnodup [Hheap Htrace]]]]]].
      split; [assumption|]. split; [|split; [|auto]].
      * intros k. rewrite Hset. split; intros [H1 H2]; (split; [assumption|]).
        -- intros [<-|Hin]; auto.
        -- auto.
      * intros k. rewrite Hmap. split; intros [H1 H2]; (split; [assumption|]).
        -- intros [<-|Hin]; auto.
        -- auto.
    + destruct (IH (Set_delete m racc) (removeBVH m w))
        as [Hnd' [Hset [Hmap [Hsub [Hnodup [Hheap Htrace]]]]]];
        [simpl; now apply Map_delete_NoDup|].
      split; [assumption|]. split; [|split; [|split; [|split; [|auto]]]].
      * intros k. rewrite Hset, Set_delete_In. split.
        -- intros [[H1 Hne] H2]. split; [assumption|].
           intros [Heq|Hin]; [congruence | auto].
        -- intros [H1 H2]. split; [split; [assumption|] | auto].
           intros ->. specialize (H2 (or_introl eq_refl)). congruence.
      * intros k. rewrite Hmap. simpl. split.
        -- intros [H1 H2].
           destruct (Nat.eq_dec k m) as [->|Hne].
           ++ rewrite Map_has_delete in H1 by assumption. discriminate.
           ++ rewrite Map_has_delete_other in H1 by assumption.
              split; [assumption|]. intros [Heq|Hin]; [congruence | auto].
        -- intros [H1 H2].
           assert (k <> m) as Hne.
           { intros ->. specialize (H2 (or_introl eq_refl)). congruence. }
           rewrite Map_has_delete_other by assumption. auto.
      * intros kv Hin. apply Hsub in Hin. simpl in Hin.
        now apply Map_delete_In in Hin.
      * intros Hr. apply Hnodup. unfold Set_delete. now apply NoDup_filter.
Qed.

Lemma cleanup_ok (meshes : list (option MeshRef)) (r : list MeshRef) (w : World) :
  hook_ok r w -> hook_ok (fst (cleanup meshes r w)) (snd (cleanup meshes r w)).
Proof.
  intros [Hnd [Hwf Hreg]]. unfold cleanup.
  apply well_formed_spec in Hwf as [Hkeys Hnames].
  destruct (cleanup_fold meshes r r w Hkeys)
    as [Hnd' [Hset [Hmap [Hsub [Hnodup _]]]]].
  split; [auto|]. split.
  - apply well_formed_spec. split; [assumption|].
    intros k e Hin. apply Hnames. now apply Hsub.
  - intros k Hin. apply Hset in Hin as [Hin Hinc]. apply Hmap. auto.
Qed.

Lemma cleanup_removes_fold (meshes : list (option MeshRef)) (r : list MeshRef) (w : World) :
  NoDup (Map_keys (bvhMeshes w)) ->
  (forall k, In k (fst (cleanup meshes r w)) <-> In k r /\ includes meshes k = true) /\
  (forall k, Map_has k (bvhMeshes (snd (cleanup meshes r w))) = true <->
             Map_has k (bvhMeshes w) = true /\ (In k r -> includes meshes k = true)).
Proof.
  intros Hkeys. unfold cleanup.
  destruct (cleanup_fold meshes r r w Hkeys) as [_ [Hset [Hmap _]]].
  split; [|assumption].
  intros k. rewrite Hset. split; intros [H1 H2]; auto.
Qed.

(** X11.  The cleanup of an effect that ran with [meshes] removes, from
    the manager and from the hook's set, exactly the registered meshes
    that [meshes] does not include.  The meshes of its own list keep
    their entries: when the component unmounts, the meshes it last
    registered stay in the manager. *)
Theorem cleanup_removes_only_meshes_off_the_list
    (meshes : list (option MeshRef)) (r : list MeshRef) (w : World) :
  NoDup (Map_keys (bvhMeshes w)) ->
  (forall k, In k (fst (cleanup meshes r w)) <-> In k r /\ includes meshes k = true) /\
  (forall k, Map_has k (bvhMeshes (snd (cleanup meshes r w))) = true <->
             Map_has k (bvhMeshes w) = true /\ (In k r -> includes meshes k = true)) /\
  (forall k, includes meshes k = true ->
             Map_has k (bvhMeshes (snd (cleanup meshes r w))) = Map_has k (bvhMeshes w)) /\
  heap (snd (cleanup meshes r w)) = heap w /\
  trace (snd (cleanup meshes r w)) = trace w.
Proof.
  intros Hkeys. unfold cleanup.
  destruct (cleanup_fold meshes r r w Hkeys)
    as [_ [Hset [Hmap [_ [_ [Hheap Htrace]]]]]].
  split; [|split; [assumption|split; [|auto]]].
  - intros k. rewrite Hset. split; intros [H1 H2]; auto.
  - intros k Hinc.
    destruct (Map_has k (bvhMeshes w)) eqn:Hbefore.
    + apply Hmap. auto.
    + apply not_true_is_false. intros Hafter.
      apply Hmap in Hafter as [Habs _]. congruence.
Qed.

Lemma effect_spec (meshes : list (option MeshRef)) (enabled : bool)
    (h : HookRefs) (w : World) :
  hook_ok (registeredRef h) w ->
  exists h' w',
    effect meshes enabled h w = (Normal h', w') /\
    hook_ok (registeredRef h') w' /\
    pending h' = (if enabled then Some meshes else None) /\
    (forall k, Map_has k (bvhMeshes w) = true -> Map_has k (bvhMeshes w') = true) /\
    (forall k, In k (registeredRef h) -> In k (registeredRef h')) /\
    (forall k, In k (registeredRef h') ->
               In k (registeredRef h) \/ includes meshes k = true) /\
    (forall k, includes meshes k = false ->
               Map_has k (bvhMeshes w') = Map_has k (bvhMeshes w)).
Proof.
  intros Hok. unfold effect. destruct enabled; simpl.
  - destruct (register_meshes_spec meshes (registeredRef h) w Hok)
      as [r [w' [Heq [Hok' [Hmono [Hkeep [Hfrom Hother]]]]]]].
    exists {| registeredRef := r; pending := Some meshes |}, w'.
    unfold bind. rewrite Heq. repeat split; auto; apply Hok'.
  - exists {| registeredRef := registeredRef h; pending := None |}, w.
    repeat split; auto; apply Hok.
Qed.

Lemma run_pending_cleanup_spec (h : HookRefs) (w : World) :
  hook_ok (registeredRef h) w ->
  exists h' w',
    run_pending_cleanup h w = (Normal h', w') /\
    hook_ok (registeredRef h') w' /\
    pending h' = None /\
    (forall k, In k (registeredRef h') -> In k (registeredRef h)) /\
    (forall k, ~ In k (registeredRef h) ->
               Map_has k (bvhMeshes w') = Map_has k (bvhMeshes w)) /\
    (forall meshes, pending h = Some meshes ->
                    registeredRef h' = fst (cleanup meshes (registeredRef h) w) /\
                    w' = snd (cleanup meshes (registeredRef h) w)) /\
    (pending h = None -> h' = h /\ w' = w).
Proof.
  intros Hok. unfold run_pending_cleanup.
  destruct (pending h) as [meshes|] eqn:Hpending.
  - pose proof (cleanup_ok meshes (registeredRef h) w Hok) as Hok'.
    destruct Hok as [_ [Hwf _]]. apply well_formed_spec in Hwf as [Hkeys _].
    destruct (cleanup_removes_fold meshes (registeredRef h) w Hkeys) as [Hset Hmap].
    destruct (cleanup meshes (registeredRef h) w) as [r w'] eqn:Hclean.
    simpl in *.
    exists {| registeredRef := r; pending := None |}, w'. simpl.
    split; [reflexivity|]. split; [assumption|]. split; [reflexivity|].
    split; [intros k Hin; now apply Hset in Hin|]. split.
    + intros k Hnot.
      destruct (Map_has k (bvhMeshes w)) eqn:Hbefore.
      * apply Hmap. split; [assumption | intros Hin; contradiction].
      * apply not_true_is_false. intros Hafter.
        apply Hmap in Hafter as [Habs _]. congruence.
    + split; [|discriminate]. intros meshes' [= <-]. rewrite Hclean. auto.
  - exists h, w. repeat split; auto; try apply Hok; discriminate.
Qed.

Lemma hook_step_spec (ev : HookEvent) (h : HookRefs) (w : World) :
  hook_ok (registeredRef h) w ->
  exists h' w',
    hook_step ev h w = (Normal h', w') /\
    hook_ok (registeredRef h') w' /\
    (forall k, lists ev k = false -> ~ In k (registeredRef h) ->
               ~ In k (registeredRef h') /\
               Map_has k (bvhMeshes w') = Map_has k (bvhMeshes w)).
Proof.
  intros Hok. destruct ev as [meshes enabled| |]; simpl.
  - destruct (run_pending_cleanup_spec h w Hok)
      as [h1 [w1 [Heq1 [Hok1 [_ [Hsub1 [Hother1 _]]]]]]].
    destruct (effect_spec meshes enabled h1 w1 Hok1)
      as [h2 [w2 [Heq2 [Hok2 [_ [_ [_ [Hfrom2 Hother2]]]]]]]].
    exists h2, w2. unfold bind. rewrite Heq1. split; [assumption|].
    split; [assumption|]. intros k Hlist Hnot. split.
    + intros Hin. destruct (Hfrom2 k Hin) as [Hin1|Hinc]; [|congruence].
      apply Hnot. now apply Hsub1.
    + rewrite Hother2 by assumption. now apply Hother1.
  - destruct (run_pending_cleanup_spec h w Hok)
      as [h1 [w1 [Heq1 [Hok1 [_ [Hsub1 [Hother1 _]]]]]]].
    exists h1, w1. split; [assumption|]. split; [assumption|].
    intros k _ Hnot. split; [intros Hin; apply Hnot; now apply Hsub1 | now apply Hother1].
  - destruct Hok as [Hnd [Hwf Hreg]].
    destruct (pending h).
    + exists h, (updateMatrices w). split; [reflexivity|]. split.
      * split; [assumption|]. split.
        -- exact (run_op_well_formed CallUpdateMatrices w Hwf).
        -- intros k Hin.
           rewrite (Map_has_keys (bvhMeshes w) (bvhMeshes (updateMatrices w)) k
                                 (updateMatrices_keys w)).
           now apply Hreg.
      * intros k _ Hnot. split; [assumption|].
        apply (Map_has_keys (bvhMeshes w) (bvhMeshes (updateMatrices w)) k
                            (updateMatrices_keys w)).
    + exists h, w. repeat split; auto.
Qed.

Lemma hook_run_spec (events : list HookEvent) :
  forall (h : HookRefs) (w : World),
    hook_ok (registeredRef h) w ->
    exists h' w',
      hook_run events h w = (Normal h', w') /\
      hook_ok (registeredRef h') w' /\
      (forall k, existsb (fun ev => lists ev k) events = false ->
                 ~ In k (registeredRef h) ->
                 ~ In k (registeredRef h') /\
                 Map_has k (bvhMeshes w') = Map_has k (bvhMeshes w)).
Proof.
  induction events as [|ev rest IH]; intros h w Hok; simpl.
  - exists h, w. repeat split; auto; apply Hok.
  - destruct (hook_step_spec ev h w Hok) as [h1 [w1 [Heq1 [Hok1 Hframe1]]]].
    destruct (IH h1 w1 Hok1) as [h2 [w2 [Heq2 [Hok2 Hframe2]]]].
    exists h2, w2. unfold bind. rewrite Heq1. split; [assumption|].
    split; [assumption|]. intros k Hlist Hnot.
    apply orb_false_iff in Hlist as [Hev Hrest].
    destruct (Hframe1 k Hev Hnot) as [Hnot1 Hsame1].
    destruct (Hframe2 k Hrest Hnot1) as [Hnot2 Hsame2].
    split; [assumption | congruence].
Qed.

(** X10.  Whatever the renders, unmounts and ticks of one instance of the
    hook, starting from a well-formed manager: no event throws; the
    hook's set has no repeats and every mesh in it has an entry in the
    manager; and a mesh that no render has listed is not in the set and
    has an entry exactly if it had one at the start. *)
Theorem hook_keeps_its_set_registered (events : list HookEvent) (w0 : World) :
  well_formed w0 = true ->
  exists h w,
    hook_run events new_hook w0 = (Normal h, w) /\
    NoDup (registeredRef h) /\
    well_formed w = true /\
    (forall k, In k (registeredRef h) -> Map_has k (bvhMeshes w) = true) /\
    (forall k, existsb (fun ev => lists ev k) events = false ->
               ~ In k (registeredRef h) /\
               Map_has k (bvhMeshes w) = Map_has k (bvhMeshes w0)).
Proof.
  intros Hwf.
  assert (hook_ok (registeredRef new_hook) w0) as Hok.
  { split; [constructor|]. split; [assumption | intros k []]. }
  destruct (hook_run_spec events new_hook w0 Hok) as [h [w [Heq [Hok' Hframe]]]].
  exists h, w. destruct Hok' as [Hnd [Hwf' Hreg]].
  repeat split; auto; apply Hframe; auto.
Qed.

(** X12.  A change of the list takes effect one cleanup late.  After a
    first render with list [A], a render with list [B] removes nothing
    from the manager, not even the meshes that [B] no longer lists; they
    go only when the next cleanup runs (here the unmount), and that
    cleanup leaves the entries of the meshes of [B]. *)
Theorem list_change_removes_one_cleanup_late
    (A B0 : list (option MeshRef)) (w0 : World) :
  well_formed w0 = true ->
  exists h1 w1 h2 w2 h3 w3,
    hook_step (Render A true) new_hook w0 = (Normal h1, w1) /\
    hook_step (Render B0 true) h1 w1 = (Normal h2, w2) /\
    hook_step Unmount h2 w2 = (Normal h3, w3) /\
    (forall k, Map_has k (bvhMeshes w1) = true -> Map_has k (bvhMeshes w2) = true) /\
    (forall k, In k (registeredRef h1) -> In k (registeredRef h2)) /\
    (forall k, In k (registeredRef h2) -> includes B0 k = false ->
               Map_has k (bvhMeshes w3) = false /\ ~ In k (registeredRef h3)) /\
    (forall k, includes B0 k = true ->
               Map_has k (bvhMeshes w3) = Map_has k (bvhMeshes w2)).
Proof.
  intros Hwf.
  assert (hook_ok (registeredRef new_hook) w0) as Hok0.
  { split; [constructor|]. split; [assumption | intros k []]. }
  (* first render: nothing is pending *)
  destruct (effect_spec A true new_hook w0 Hok0)
    as [h1 [w1 [Heq1 [Hok1 [Hpend1 [_ [_ [Hfrom1 _]]]]]]]].
  simpl in Hpend1.
  (* second render: the cleanup of the first, then the effect *)
  destruct (run_pending_cleanup_spec h1 w1 Hok1)
    as [hc [wc [Heqc [Hokc [_ [_ [_ [Hclean _]]]]]]]].
  destruct (Hclean A Hpend1) as [Hrc Hwc].
  pose proof Hok1 as [_ [Hwf1 _]]. apply well_formed_spec in Hwf1 as [Hkeys1 _].
  destruct (cleanup_removes_fold A (registeredRef h1) w1 Hkeys1) as [Hset1 Hmap1].
  rewrite <- Hrc in Hset1. rewrite <- Hwc in Hmap1.
  assert (forall k, In k (registeredRef h1) -> includes A k = true) as HinA.
  { intros k Hin. destruct (Hfrom1 k Hin) as [[]|Hinc]. exact Hinc. }
  destruct (effect_spec B0 true hc wc Hokc)
    as [h2 [w2 [Heq2 [Hok2 [Hpend2 [Hmono2 [Hkeep2 _]]]]]]].
  simpl in Hpend2.
  (* unmount: the cleanup of the second *)
  destruct (run_pending_cleanup_spec h2 w2 Hok2)
    as [h3 [w3 [Heq3 [Hok3 [_ [_ [_ [Hclean3 _]]]]]]]].
  destruct (Hclean3 B0 Hpend2) as [Hr3 Hw3].
  pose proof Hok2 as [_ [Hwf2 Hreg2]]. apply well_formed_spec in Hwf2 as [Hkeys2 _].
  destruct (cleanup_removes_fold B0 (registeredRef h2) w2 Hkeys2) as [Hset3 Hmap3].
  rewrite <- Hr3 in Hset3. rewrite <- Hw3 in Hmap3.
  exists h1, w1, h2, w2, h3, w3.
  split; [exact Heq1|]. split.
  { simpl. unfold bind. now rewrite Heqc. }
  split; [exact Heq3|]. split; [|split; [|split]].
  - intros k Hk. apply Hmono2. apply Hmap1. split; [assumption | auto].
  - intros k Hin. apply Hkeep2. apply Hset1. auto.
  - intros k Hin Hinc. split.
    + apply not_true_is_false. intros Hafter.
      apply Hmap3 in Hafter as [_ Himp]. specialize (Himp Hin). congruence.
    + intros Hin3. apply Hset3 in Hin3 as [_ Habs]. congruence.
  - intros k Hinc.
    destruct (Map_has k (bvhMeshes w2)) eqn:Hbefore.
    + apply Hmap3. auto.
    + apply not_true_is_false. intros Hafter.
      apply Hmap3 in Hafter as [Habs _]. congruence.
Qed.

Lemma register_mesh_keeps (r : list MeshRef) (mesh : option MeshRef) (w : World)
    (m : MeshRef) :
  well_formed w = true -> In m r ->
  exists r' w',
    register_mesh r mesh w = (Normal r', w') /\
    well_formed w' = true /\ In m r' /\
    Map_has m (bvhMeshes w') = Map_has m (bvhMeshes w).
Proof.
  intros Hwf Hin. unfold register_mesh.
  destruct mesh as [k|]; [|exists r, w; auto].
  destruct (Set_has k r) eqn:Hhas; simpl; [exists r, w; auto|].
  assert (m <> k) as Hne.
  { intros ->. apply Set_has_In in Hin. congruence. }
  unfold bind.
  pose proof (buildBVH_registry k w) as [Hother _].
  pose proof (run_op_well_formed (CallBuildBVH k) w Hwf) as Hwf'. simpl in Hwf'.
  destruct (buildBVH_normal k w) as [res Hres].
  destruct (buildBVH k w) as [c w']. simpl in *. subst c.
  destruct res as [e|]; unfold ret.
  - exists (Set_add k r), w'. repeat split; auto. apply Set_add_In. now left.
  - exists r, w'. repeat split; auto.
Qed.

Lemma register_meshes_keeps (meshes : list (option MeshRef)) (m : MeshRef) :
  forall (r : list MeshRef) (w : World),
    well_formed w = true -> In m r ->
    exists r' w',
      register_meshes meshes r w = (Normal r', w') /\
      well_formed w' = true /\ In m r' /\
      Map_has m (bvhMeshes w') = Map_has m (bvhMeshes w).
Proof.
  induction meshes as [|mesh rest IH]; intros r w Hwf Hin; simpl.
  - exists r, w. auto.
  - destruct (register_mesh_keeps r mesh w m Hwf Hin)
      as [r1 [w1 [Heq1 [Hwf1 [Hin1 Hsame1]]]]].
    destruct (IH r1 w1 Hwf1 Hin1) as [r2 [w2 [Heq2 [Hwf2 [Hin2 Hsame2]]]]].
    exists r2, w2. unfold bind at 1. rewrite Heq1. repeat split; auto. congruence.
Qed.

Lemma cleanup_well_formed (meshes : list (option MeshRef)) (r : list MeshRef) (w : World) :
  well_formed w = true -> well_formed (snd (cleanup meshes r w)) = true.
Proof.
  intros Hwf. apply well_formed_spec in Hwf as [Hkeys Hnames].
  unfold cleanup.
  destruct (cleanup_fold meshes r r w Hkeys) as [Hnd' [_ [_ [Hsub _]]]].
  apply well_formed_spec. split; [assumption|].
  intros k e Hin. apply Hnames. now apply Hsub.
Qed.

Lemma hook_step_keeps (ev : HookEvent) (h : HookRefs) (w : World) (m : MeshRef) :
  well_formed w = true -> In m (registeredRef h) ->
  pending_lists h m = true ->
  always_listed [ev] m = true ->
  exists h' w',
    hook_step ev h w = (Normal h', w') /\
    well_formed w' = true /\ In m (registeredRef h') /\
    pending_lists h' m = true /\
    Map_has m (bvhMeshes w') = Map_has m (bvhMeshes w).
Proof.
  intros Hwf Hin Hpend Hev.
  assert (exists h1 w1,
             run_pending_cleanup h w = (Normal h1, w1) /\
             well_formed w1 = true /\ In m (registeredRef h1) /\
             pending h1 = None /\
             Map_has m (bvhMeshes w1) = Map_has m (bvhMeshes w)) as Hclean.
  { unfold run_pending_cleanup, pending_lists in *.
    destruct (pending h) as [P|] eqn:HP; [|exists h, w; auto].
    pose proof (cleanup_well_formed P (registeredRef h) w Hwf) as Hwf1.
    pose proof Hwf as Hwf0. apply well_formed_spec in Hwf0 as [Hkeys _].
    destruct (cleanup_removes_fold P (registeredRef h) w Hkeys) as [Hset Hmap].
    destruct (cleanup P (registeredRef h) w) as [r1 w1]. simpl in *.
    exists {| registeredRef := r1; pending := None |}, w1. simpl.
    repeat split; auto.
    - apply Hset. auto.
    - destruct (Map_has m (bvhMeshes w)) eqn:Hbefore.
      + apply Hmap. auto.
      + apply not_true_is_false. intros Hafter.
        apply Hmap in Hafter as [Habs _]. congruence. }
  destruct ev as [L enabled| |]; simpl in *.
  - destruct Hclean as [h1 [w1 [Heq1 [Hwf1 [Hin1 [Hp1 Hsame1]]]]]].
    rewrite andb_true_r in Hev.
    unfold bind. rewrite Heq1. unfold effect.
    destruct enabled; simpl.
    + destruct (register_meshes_keeps L m (registeredRef h1) w1 Hwf1 Hin1)
        as [r2 [w2 [Heq2 [Hwf2 [Hin2 Hsame2]]]]].
      exists {| registeredRef := r2; pending := Some L |}, w2.
      unfold bind. rewrite Heq2. unfold pending_lists. simpl.
      repeat split; auto. congruence.
    + exists {| registeredRef := registeredRef h1; pending := None |}, w1.
      unfold pending_lists. simpl. repeat split; auto.
  - destruct Hclean as [h1 [w1 [Heq1 [Hwf1 [Hin1 [Hp1 Hsame1]]]]]].
    exists h1, w1. unfold pending_lists. rewrite Hp1. auto.
  - destruct (pending h) eqn:HP.
    + exists h, (updateMatrices w). repeat split; auto.
      * exact (run_op_well_formed CallUpdateMatrices w Hwf).
      * apply (Map_has_keys (bvhMeshes w) (bvhMeshes (updateMatrices w)) m
                            (updateMatrices_keys w)).
    + exists h, w. auto.
Qed.

(** X13.  The hook does not register again what it holds as registered.
    For a mesh that is in the hook's set and that every render keeps
    listing, no render, tick or unmount changes whether the manager has
    an entry for it: if the entry was lost ([clear()], or a [removeBVH]
    from elsewhere), the mounted hook never builds it again. *)
Theorem hook_never_registers_again
    (events : list HookEvent) (h : HookRefs) (w : World) (m : MeshRef) :
  well_formed w = true ->
  In m (registeredRef h) ->
  pending_lists h m = true ->
  always_listed events m = true ->
  exists h' w',
    hook_run events h w = (Normal h', w') /\
    In m (registeredRef h') /\
    Map_has m (bvhMeshes w') = Map_has m (bvhMeshes w).
Proof.
  revert h w.
  induction events as [|ev rest IH]; intros h w Hwf Hin Hpend Hall.
  - exists h, w. auto.
  - simpl in Hall. apply andb_true_iff in Hall as [Hev Hrest].
    destruct (hook_step_keeps ev h w m Hwf Hin Hpend)
      as [h1 [w1 [Heq1 [Hwf1 [Hin1 [Hpend1 Hsame1]]]]]].
    { simpl. now rewrite Hev. }
    destruct (IH h1 w1 Hwf1 Hin1 Hpend1 Hrest) as [h2 [w2 [Heq2 [Hin2 Hsame2]]]].
    exists h2, w2. simpl. unfold bind. rewrite Heq1.
    repeat split; auto. congruence.
Qed.

End HookFacts.

(* ===================================================================== *)
(** ** The concrete world: its order, and the manager run on the scene *)
(* ===================================================================== *)

Module Runs.
Import Flat Scene.

Lemma Qltb_lt (a b : Q) : Qltb a b = true <-> (a < b)%Q.
Proof. unfold Qltb, Qlt. apply Z.ltb_lt. Qed.

(** The comparison of the concrete numbers is a strict order, NaN and the
    infinities included. *)
Lemma order : JSNumberOrder JS.
Proof.
  split.
  - intros [| |q|]; simpl; try reflexivity.
    destruct (Qltb q q) eqn:Hlt; [|reflexivity].
    apply Qltb_lt in Hlt. now apply Qlt_irrefl in Hlt.
  - intros [| |p|] [| |q|] [| |r|]; simpl; try discriminate; try reflexivity.
    intros Hpq Hqr. apply Qltb_lt. apply Qltb_lt in Hpq, Hqr.
    now apply Qlt_trans with q.
Qed.

Example build_ground : fst (buildBVH 0 start) = Normal (Some ground_entry).
Proof. reflexivity. Qed.

Example build_platform : fst (buildBVH 1 ground_only) = Normal (Some platform_entry).
Proof. reflexivity. Qed.

Example both_registered :
  bvhMeshes both = [(0, ground_entry); (1, platform_entry)] /\
  well_formed both = true.
Proof. split; reflexivity. Qed.

Example per_mesh_hits : raycast_hits both probe = [ground_hit; platform_hit].
Proof. reflexivity. Qed.

Example raycast_picks_platform : raycast both probe (Some (Fin 20)) = Some platform_hit.
Proof. reflexivity. Qed.

(** A hit at exactly the range is not nearer than the range. *)
Example raycast_range_is_strict : raycast both probe (Some (Fin 7)) = None.
Proof. reflexivity. Qed.

Example raycast_after_remove :
  raycast (removeBVH 1 both) probe None = Some ground_hit.
Proof. reflexivity. Qed.

Example sphereCast_picks_platform :
  sphereCast both ball down (Some (Fin 20)) = Some platform_hit.
Proof. reflexivity. Qed.

Example ground_height_under_platform :
  getGroundHeight both (Fin 0) (Fin 0) None = Some (Fin 3) /\
  getGroundHeight both (Fin 0) (Fin 0) (Some (Fin 1)) = Some (Fin 0) /\
  getGroundHeight (clear both) (Fin 0) (Fin 0) None = None.
Proof. repeat split; reflexivity. Qed.

Example build_without_faces :
  fst (buildBVH 2 both) = Normal None /\
  trace (snd (buildBVH 2 both))
  = ConsoleError "geometry has no faces"%string 2
      :: NewMeshBVH {| g_indexed := true; g_floors := [] |} :: trace both.
Proof. split; reflexivity. Qed.

(** A session: both meshes are built, the ground is removed, a mesh
    without faces is tried, the ground is built again, everything is
    cleared, and the platform is built once more. *)
Example session_keys :
  Map_keys (bvhMeshes (snd (run [CallBuildBVH 0; CallBuildBVH 1; CallRemoveBVH 0;
                                 CallBuildBVH 2; CallBuildBVH 0]
                                start))) = [1; 0] /\
  Map_keys (bvhMeshes (snd (run [CallBuildBVH 0; CallBuildBVH 1; CallRemoveBVH 0;
                                 CallBuildBVH 2; CallBuildBVH 0; CallClear;
                                 CallBuildBVH 1]
                                start))) = [1].
Proof. split; reflexivity. Qed.

(** Witness of C1. *)
Lemma raycast_returns_closest_hit_witness :
  raycast both probe (Some (Fin 20)) = Some platform_hit /\
  closest_within (Fin 20) (raycast_hits both probe) platform_hit.
Proof.
  split; [reflexivity|].
  apply (raycast_returns_closest_hit (O := order) both probe (Some (Fin 20))).
  reflexivity.
Defined.

(** The selection among the candidates of [sphereCast], on the scene. *)
Lemma sphereCast_returns_closest_hit_witness :
  sphereCast both ball down (Some (Fin 20)) = Some platform_hit /\
  closest_within (Fin 20) (sphereCast_hits both ball down (Fin 20)) platform_hit.
Proof.
  split; [reflexivity|].
  apply (sphereCast_returns_closest_hit (O := order) both ball down (Some (Fin 20))).
  reflexivity.
Defined.

(** Witness of C4. *)
Lemma getGroundHeight_nearest_downward_hit_witness :
  getGroundHeight both (Fin 0) (Fin 0) (Some (Fin 5)) = Some (Fin 3) /\
  exists h,
    raycast both (mkRay (vec 0 5 0) down) (Some (Fin 10)) = Some h /\
    closest_within (Fin 10) (raycast_hits both (mkRay (vec 0 5 0) down)) h /\
    Fin 3 = y (point h).
Proof.
  split; [reflexivity|].
  apply (getGroundHeight_nearest_downward_hit (O := order) both (Fin 0) (Fin 0)
                                              (Some (Fin 5))).
  reflexivity.
Defined.

(** Witness of C2: the ground is registered and has its geometry. *)
Lemma buildBVH_returns_cached_entry_witness :
  buildBVH 0 ground_only = (Normal (Some ground_entry), ground_only) /\
  buildBVH 1 both = (Normal (Some platform_entry), both).
Proof.
  split.
  - apply (proj1 (buildBVH_returns_cached_entry 0 ground_only));
      [reflexivity | discriminate].
  - apply (proj2 (buildBVH_returns_cached_entry 1 ground_only)). reflexivity.
Defined.

(** Witness of C3: the platform is removed; the matrices are refreshed,
    the ground is built again and a mesh without faces is tried. *)
Lemma removeBVH_makes_queries_ignore_witness :
  Map_has 1 (bvhMeshes
               (snd (run [CallUpdateMatrices; CallBuildBVH 0; CallBuildBVH 2]
                         (removeBVH 1 both)))) = false /\
  ignores (snd (run [CallUpdateMatrices; CallBuildBVH 0; CallBuildBVH 2]
                    (removeBVH 1 both))) 1.
Proof.
  exact (removeBVH_makes_queries_ignore
           1 both [CallUpdateMatrices; CallBuildBVH 0; CallBuildBVH 2]
           eq_refl eq_refl).
Defined.

(** Witness of C8: the construction throws for mesh 2. *)
Lemma failed_buildBVH_changes_no_answer_witness :
  bvhMeshes (snd (buildBVH 2 both)) = bvhMeshes both /\
  Map_has 2 (bvhMeshes (snd (buildBVH 2 both))) = false /\
  same_answers (snd (buildBVH 2 both)) both.
Proof.
  exact (failed_buildBVH_changes_no_answer 2 both (snd (buildBVH 2 both))
                                            eq_refl eq_refl eq_refl).
Defined.

(** Against C2 as stated: the ground has an entry, the caller has taken
    its geometry away, and [buildBVH] warns and returns [null] instead of
    the entry. *)
Lemma buildBVH_of_registered_mesh_returns_null :
  stripped
  = snd (run [CallBuildBVH 0; CallerWrites 0 (with_geometry (scene 0) None)] start) /\
  Map_get 0 (bvhMeshes stripped) = Some ground_entry /\
  buildBVH 0 stripped = (Normal None, emit (ConsoleWarn 0) stripped).
Proof. repeat split; reflexivity. Qed.


(** Against the last part of C10 as stated: with [maxDistance = 1] the
    probe starts at height 1; the point at height 5/2 is more than
    [maxDistance] above that, and with threshold 10 it is on ground. *)
Lemma isOnGround_high_above_probe_start :
  let position := vec 0 (5 # 2) 0 in
  let maxDistance := Fin 1 in
  let start_height := y (origin (ground_probe (x position) (z position) maxDistance)) in
  num_lt maxDistance (num_sub (y position) start_height) = true /\
  getGroundHeight ground_only (x position) (z position) (Some maxDistance) = Some (Fin 0) /\
  isOnGround ground_only position (Some (Fin 10)) (Some maxDistance) = true.
Proof. repeat split; reflexivity. Qed.

(** With equal distances the mesh registered first is the answer. *)
Example tie_goes_to_first :
  option_map object (raycast twins probe None) = Some 0 /\
  option_map object (raycast twins_reversed probe None) = Some 1.
Proof. split; reflexivity. Qed.

(** A moved mesh is cast with the old inverse until [updateMatrices]:
    probed from height 4, the platform that now stands at height 5 is
    still reported as the ground below. *)
Example stale_until_refreshed :
  getGroundHeight moved (Fin 0) (Fin 0) (Some (Fin 4)) = Some (Fin 5) /\
  getGroundHeight (updateMatrices moved) (Fin 0) (Fin 0) (Some (Fin 4)) = Some (Fin 0).
Proof. split; reflexivity. Qed.

(** The hook on the scene: after the list has shrunk to the platform the
    ground is still registered; the unmount removes the ground and leaves
    the platform in the manager. *)
Example hook_session :
  (let r := hook_run [Render first_list true; Tick; Render second_list true]
                     new_hook start in
   fst r = Normal {| registeredRef := [0; 1]; pending := Some second_list |} /\
   Map_keys (bvhMeshes (snd r)) = [0; 1]) /\
  (let r := hook_run [Render first_list true; Tick; Render second_list true; Unmount]
                     new_hook start in
   fst r = Normal {| registeredRef := [1]; pending := None |} /\
   Map_keys (bvhMeshes (snd r)) = [1]).
Proof. repeat split; reflexivity. Qed.

(** Witness of X2. *)
Lemma cache_stays_coherent_witness :
  well_formed moved = true /\
  coherent (snd (run [CallBuildBVH 2; CallRemoveBVH 0; CallRaycast probe None;
                      CallBuildBVH 0; CallUpdateMatrices]
                     (updateMatrices moved))).
Proof.
  split; [reflexivity|].
  exact (cache_stays_coherent
           moved
           [CallBuildBVH 2; CallRemoveBVH 0; CallRaycast probe None;
            CallBuildBVH 0; CallUpdateMatrices]
           eq_refl eq_refl).
Defined.

(** Witness of X3. *)
Lemma raycast_ties_go_to_first_registered_witness :
  raycast twins probe None = Some ground_hit /\
  exists before k bvhMesh after,
    bvhMeshes twins = before ++ (k, bvhMesh) :: after /\
    raycast_mesh_hit twins probe bvhMesh = Some ground_hit /\
    (forall k' e' c, In (k', e') before -> raycast_mesh_hit twins probe e' = Some c ->
                     distance c <> distance ground_hit) /\
    (forall k' e' c, In (k', e') after -> raycast_mesh_hit twins probe e' = Some c ->
                     num_lt (distance c) (distance ground_hit) = false).
Proof.
  split; [reflexivity|].
  exact (raycast_ties_go_to_first_registered (O := order) twins probe None ground_hit
                                             eq_refl).
Defined.

(** Witness of X4. *)
Lemma sphereCast_ties_go_to_first_registered_witness :
  sphereCast twins ball down (Some (Fin 30)) = Some ground_hit /\
  exists before k bvhMesh after,
    bvhMeshes twins = before ++ (k, bvhMesh) :: after /\
    sphereCast_mesh_hit twins ball down (Fin 30) bvhMesh = Some ground_hit /\
    (forall k' e' c, In (k', e') before ->
                     sphereCast_mesh_hit twins ball down (Fin 30) e' = Some c ->
                     distance c <> distance ground_hit) /\
    (forall k' e' c, In (k', e') after ->
                     sphereCast_mesh_hit twins ball down (Fin 30) e' = Some c ->
                     num_lt (distance c) (distance ground_hit) = false).
Proof.
  split; [reflexivity|].
  exact (sphereCast_ties_go_to_first_registered (O := order) twins ball down
                                                (Some (Fin 30)) ground_hit eq_refl).
Defined.

Lemma both_keys_NoDup : NoDup (Map_keys (bvhMeshes both)).
Proof. apply nodupb_NoDup. reflexivity. Qed.

(** Witness of X5. *)
Lemma removeBVH_only_drops_its_entry_witness :
  bvhMeshes (removeBVH 0 both) = [(1, platform_entry)] /\
  removeBVH 7 both = both /\
  removeBVH 0 (removeBVH 0 both) = removeBVH 0 both.
Proof.
  destruct (removeBVH_only_drops_its_entry 0 both both_keys_NoDup)
    as [Hmap [_ [_ [_ Htwice]]]].
  destruct (removeBVH_only_drops_its_entry 7 both both_keys_NoDup)
    as [_ [_ [_ [Hmissing _]]]].
  split; [exact Hmap|]. split; [exact (Hmissing eq_refl) | exact Htwice].
Defined.

(** Witness of X8. *)
Lemma removeBVH_then_buildBVH_rebuilds_witness :
  exists e,
    fst (buildBVH 0 (removeBVH 0 both)) = Normal (Some e) /\
    mesh e = 0 /\
    bvh e = [0%Q] /\
    invMatrixWorld e = Matrix4_invert (worldMatrixOf (placement (heap both 0))) /\
    Map_get 0 (bvhMeshes (snd (buildBVH 0 (removeBVH 0 both)))) = Some e /\
    Map_keys (bvhMeshes (snd (buildBVH 0 (removeBVH 0 both)))) = [1; 0] /\
    trace (snd (buildBVH 0 (removeBVH 0 both)))
    = NewMeshBVH {| g_indexed := true; g_floors := [0%Q] |} :: trace both.
Proof.
  exact (removeBVH_then_buildBVH_rebuilds
           0 both {| g_indexed := true; g_floors := [0%Q] |} [0%Q]
           eq_refl eq_refl eq_refl).
Defined.

(** Witness of X9. *)
Lemma cast_answers_name_registered_meshes_witness :
  Map_has (object platform_hit) (bvhMeshes both) = true /\
  distance platform_hit = Vector3_distanceTo (origin probe) (point platform_hit).
Proof.
  exact (proj1 (cast_answers_name_registered_meshes both eq_refl)
               probe (Some (Fin 20)) platform_hit eq_refl).
Defined.

(** Witness of X10. *)
Lemma hook_keeps_its_set_registered_witness :
  exists h w,
    hook_run [Render first_list true; Tick; Render second_list true; Unmount]
             new_hook start = (Normal h, w) /\
    NoDup (registeredRef h) /\
    well_formed w = true /\
    (forall k, In k (registeredRef h) -> Map_has k (bvhMeshes w) = true) /\
    (forall k,
        existsb (fun ev => lists ev k)
                [Render first_list true; Tick; Render second_list true; Unmount] = false ->
        ~ In k (registeredRef h) /\
        Map_has k (bvhMeshes w) = Map_has k (bvhMeshes start)).
Proof.
  exact (hook_keeps_its_set_registered
           [Render first_list true; Tick; Render second_list true; Unmount]
           start eq_refl).
Defined.

(** Witness of X11: the cleanup of the shrunk list on the manager that
    holds the ground and the platform. *)
Lemma cleanup_removes_only_meshes_off_the_list_witness :
  Map_keys (bvhMeshes (snd (cleanup second_list [0; 1] both))) = [1] /\
  (forall k, In k (fst (cleanup second_list [0; 1] both)) <->
             In k [0; 1] /\ includes second_list k = true) /\
  (forall k, includes second_list k = true ->
             Map_has k (bvhMeshes (snd (cleanup second_list [0; 1] both)))
             = Map_has k (bvhMeshes both)).
Proof.
  destruct (cleanup_removes_only_meshes_off_the_list second_list [0; 1] both
                                                     both_keys_NoDup)
    as [Hset [_ [Hkept _]]].
  split; [reflexivity|]. split; [exact Hset | exact Hkept].
Defined.

(** Witness of X12. *)
Lemma list_change_removes_one_cleanup_late_witness :
  exists h1 w1 h2 w2 h3 w3,
    hook_step (Render first_list true) new_hook start = (Normal h1, w1) /\
    hook_step (Render second_list true) h1 w1 = (Normal h2, w2) /\
    hook_step Unmount h2 w2 = (Normal h3, w3) /\
    (forall k, Map_has k (bvhMeshes w1) = true -> Map_has k (bvhMeshes w2) = true) /\
    (forall k, In k (registeredRef h1) -> In k (registeredRef h2)) /\
    (forall k, In k (registeredRef h2) -> includes second_list k = false ->
               Map_has k (bvhMeshes w3) = false /\ ~ In k (registeredRef h3)) /\
    (forall k, includes second_list k = true ->
               Map_has k (bvhMeshes w3) = Map_has k (bvhMeshes w2)).
Proof.
  exact (list_change_removes_one_cleanup_late first_list second_list start eq_refl).
Defined.

(** Witness of X13: the manager is cleared behind the back of a mounted
    hook that lists the ground and the platform; renders and ticks do not
    bring the ground back. *)
Lemma hook_never_registers_again_witness :
  Map_has 0 (bvhMeshes (clear both)) = false /\
  exists h' w',
    hook_run [Tick; Render [Some 0; Some 1] true; Tick; Render [Some 1; Some 0] true]
             {| registeredRef := [0; 1]; pending := Some [Some 0; Some 1] |}
             (clear both) = (Normal h', w') /\
    In 0 (registeredRef h') /\
    Map_has 0 (bvhMeshes w') = Map_has 0 (bvhMeshes (clear both)).
Proof.
  split; [reflexivity|].
  apply (hook_never_registers_again
           [Tick; Render [Some 0; Some 1] true; Tick; Render [Some 1; Some 0] true]
           {| registeredRef := [0; 1]; pending := Some [Some 0; Some 1] |}
           (clear both) 0); try reflexivity.
  simpl. now left.
Defined.

(** C7.  The code at two inputs where it departs from the claim.  The
    ball at height 10 is cast straight up with range 20: the answer is
    the platform at height 3, below the ball, because the direction is
    put through [applyMatrix4] like a point and the platform's inverse
    (a translation by -3) turns (0,1,0) into a vector pointing down; a
    ray with the same origin and direction, whose direction [raycast]
    transforms as a direction, hits nothing.  And with the default range
    the direction is scaled by [Infinity], which leaves no usable ray:
    the cast straight down answers [null] although the platform is 7
    below the ball, where [raycast] finds it. *)
Lemma sphereCast_direction_is_moved_as_a_point :
  sphereCast both ball up (Some (Fin 20)) = Some platform_hit /\
  y (center ball) = Fin 10 /\
  y (point platform_hit) = Fin 3 /\
  invMatrixWorld platform_entry = vec 0 (-3) 0 /\
  local_direction up (Fin 20) platform_entry = vec 0 (-20) 0 /\
  direction (Ray_applyMatrix4 (mkRay (center ball) up) (invMatrixWorld platform_entry))
  = up /\
  raycast both (mkRay (center ball) up) (Some (Fin 20)) = None /\
  sphereCast both ball down None = None /\
  local_direction down Infinity platform_entry = mkVector3 NaN NegInf NaN /\
  raycast both (mkRay (center ball) down) None = Some platform_hit.
Proof. repeat split; reflexivity. Qed.

End Runs.
